(** * esbuild-plugin-inklecate: the compile adapter of [src/index.mts]

    A shallow embedding of the plugin's [onLoad] callback and of the two
    helpers [createESBuildMessageForIssue] and [readFileForMessage],
    followed by the properties its specification states about them.

    JavaScript strings are sequences of UTF-16 code units; they are
    modelled as [list N].  The file system and the per-build file cache
    are finite maps from paths to contents.  Functions of the Node runtime
    that the plugin only calls ([path.resolve], [path.dirname],
    [JSON.stringify], the spawned compiler, ...) are fields of a [Runtime]
    record, so every statement holds for any behaviour of theirs. *)

From Stdlib Require Import ZArith NArith Ascii String DecimalString.
From stdpp Require Import base option list numbers gmap.

Local Open Scope Z_scope.

(** ** Strings *)

Abbreviation jsstring := (list N).

(** A string literal with code units below 256. *)
Definition lit (s : string) : jsstring :=
  (fun a => N_of_ascii a) <$> list_ascii_of_string s.
Arguments lit : simpl never.

(** [LineTerminator] of ECMAScript: LF, CR, LS and PS.  The regular
    expression atom [.] matches every code unit but these. *)
Definition is_line_terminator (c : N) : bool :=
  (c =? 10)%N || (c =? 13)%N || (c =? 8232)%N || (c =? 8233)%N.

Definition dot (c : N) : bool := negb (is_line_terminator c).

(** [\d] without the unicode flag: the ten ASCII digits. *)
Definition digit (c : N) : bool := (48 <=? c)%N && (c <=? 57)%N.

(** Length of the longest prefix whose code units all satisfy [p]. *)
Fixpoint span (p : N -> bool) (s : jsstring) : nat :=
  match s with
  | c :: s' => if p c then S (span p s') else O
  | [] => O
  end.

(** [strip_prefix l s] removes the literal [l] from the front of [s]. *)
Fixpoint strip_prefix (l s : jsstring) : option jsstring :=
  match l, s with
  | [], _ => Some s
  | a :: l', c :: s' => if (a =? c)%N then strip_prefix l' s' else None
  | _ :: _, [] => None
  end.

(** [parseInt(d, 10)] on a string of decimal digits: its exact value.  The
    code gets a double, which is this integer for every value below 2^53,
    hence for every string of at most 15 digits.  Beyond, the double is
    rounded, or infinite, and only two facts carry over from this integer:
    it is not negative and it is past the end of every array. *)
Definition parseInt (d : jsstring) : Z :=
  fold_left (fun acc c => 10 * acc + (Z.of_N c - 48)) d 0.

(** [s.split(sep)] for a separator of one code unit. *)
Fixpoint split (sep : N) (s : jsstring) : list jsstring :=
  match s with
  | [] => [[]]
  | c :: s' =>
      if (c =? sep)%N then [] :: split sep s'
      else match split sep s' with
           | l :: ls => (c :: l) :: ls
           | [] => [[c]]
           end
  end.

(** [a[i]] for a number [i]: [undefined] outside [0 .. a.length - 1]. *)
Definition index {A} (a : list A) (i : Z) : option A :=
  if i <? 0 then None else a !! Z.to_nat i.

(** ** Regular expressions

    The two patterns of the source are sequences of literals and of the
    capturing groups ".*" and "\d+". *)

Inductive atom : Type :=
  | Literal (l : jsstring)
  | GroupDotStar
  | GroupDigitPlus.

Abbreviation regex := (list atom).

(** A greedy quantifier tries the longest repetition first and gives back
    one code unit at a time, down to [lo] repetitions. *)
Fixpoint longest_first {A} (f : nat -> option A) (lo n : nat) : option A :=
  if (n <? lo)%nat then None
  else match f n with
       | Some x => Some x
       | None => match n with
                 | O => None
                 | S m => longest_first f lo m
                 end
       end.

(** Backtracking match of [r] at the front of [s]; the result lists the
    captured groups in order. *)
Fixpoint match_here (r : regex) (s : jsstring) : option (list jsstring) :=
  match r with
  | [] => Some []
  | Literal l :: r' =>
      match strip_prefix l s with
      | Some s' => match_here r' s'
      | None => None
      end
  | GroupDotStar :: r' =>
      longest_first
        (fun n => cons (take n s) <$> match_here r' (drop n s))
        0 (span dot s)
  | GroupDigitPlus :: r' =>
      longest_first
        (fun n => cons (take n s) <$> match_here r' (drop n s))
        1 (span digit s)
  end.

(** [s.match(r)] for a regular expression without flags: the match at the
    leftmost position where there is one. *)
Fixpoint regex_match (r : regex) (s : jsstring) : option (list jsstring) :=
  match match_here r s with
  | Some groups => Some groups
  | None => match s with
            | [] => None
            | _ :: s' => regex_match r s'
            end
  end.

(** Line 11: the error pattern, ERROR: '<file>' line <line>: <message>. *)
Definition errorRegex : regex :=
  [Literal (lit "ERROR: '"); GroupDotStar; Literal (lit "' line ");
   GroupDigitPlus; Literal (lit ": "); GroupDotStar].

(** Line 12: the warning pattern, WARNING: '<file>' line <line>: <message>. *)
Definition warningRegex : regex :=
  [Literal (lit "WARNING: '"); GroupDotStar; Literal (lit "' line ");
   GroupDigitPlus; Literal (lit ": "); GroupDotStar].

(** [m[i]] on the array returned by [match]: group [i], for [i >= 1]. *)
Definition group (m : list jsstring) (i : nat) : jsstring :=
  default [] (m !! pred i).

(** What the patterns denote: [denotes r w groups] holds when the word [w]
    is an instance of [r] whose groups are [groups]. *)
Fixpoint denotes (r : regex) (w : jsstring) (groups : list jsstring) : Prop :=
  match r with
  | [] => w = [] /\ groups = []
  | Literal l :: r' => exists w', w = l ++ w' /\ denotes r' w' groups
  | GroupDotStar :: r' =>
      exists g gs w', groups = g :: gs /\ w = g ++ w' /\
        forallb dot g = true /\ denotes r' w' gs
  | GroupDigitPlus :: r' =>
      exists g gs w', groups = g :: gs /\ w = g ++ w' /\ g <> [] /\
        forallb digit g = true /\ denotes r' w' gs
  end.

(** [occurs r s]: some substring of [s] is an instance of [r]. *)
Definition occurs (r : regex) (s : jsstring) : Prop :=
  exists pre w post groups, s = pre ++ w ++ post /\ denotes r w groups.

(** ** Failures and results *)

Inductive exn : Type :=
  | ENOENT (p : jsstring)          (* no such file or directory *)
  | EISDIR (p : jsstring)          (* the path is a directory *)
  | EEXIST (p : jsstring)          (* mkdir over a regular file *)
  | ENOTDIR (p : jsstring)         (* mkdir below a regular file *)
  | ChildError (reason : jsstring) (* the child process emitted "error" *).

Inductive result (A : Type) : Type :=
  | Ok (a : A)
  | Throw (e : exn).
Arguments Ok {A} a.
Arguments Throw {A} e.

#[global] Instance result_ret : MRet result := fun A a => Ok a.
#[global] Instance result_bind : MBind result := fun A B f m =>
  match m with Ok a => f a | Throw e => Throw e end.
#[global] Instance result_fmap : FMap result := fun A B f m =>
  match m with Ok a => Ok (f a) | Throw e => Throw e end.

(** ** The file system *)

Abbreviation bytes := (list Byte.byte).

Inductive node : Type :=
  | File (content : bytes)
  | Dir.

Abbreviation filesystem := (gmap jsstring node).

(** [fs.readFile(p)] *)
Definition readFile (fs : filesystem) (p : jsstring) : result bytes :=
  match fs !! p with
  | Some (File b) => Ok b
  | Some Dir => Throw (EISDIR p)
  | None => Throw (ENOENT p)
  end.

(** [fs.rm(p, { force: true })]: with [force], Node ignores the failure on
    a path that does not exist, and no other; a directory is not removed
    without [recursive]. *)
Definition rm_force (fs : filesystem) (p : jsstring) : result filesystem :=
  match fs !! p with
  | Some (File _) => Ok (delete p fs)
  | Some Dir => Throw (EISDIR p)
  | None => Ok fs
  end.

(** The directories above [p], nearest first, as [dirname] gives them one
    after the other.  The root, which [dirname] leaves as it is, is left
    out: it is always there and always a directory.  [dirname] shortens
    every other path, so the length of [p] bounds the number of steps. *)
Fixpoint ancestors_upto (dirname : jsstring -> jsstring) (fuel : nat)
    (p : jsstring) : list jsstring :=
  match fuel with
  | O => []
  | S fuel' =>
      let d := dirname p in
      if bool_decide (dirname d = d) then []
      else d :: ancestors_upto dirname fuel' d
  end.

Definition ancestors (dirname : jsstring -> jsstring) (p : jsstring) : list jsstring :=
  ancestors_upto dirname (length p) p.

Definition is_file (fs : filesystem) (p : jsstring) : bool :=
  match fs !! p with
  | Some (File _) => true
  | _ => false
  end.

(** Records a directory at [p] unless something is there. *)
Definition ensure_dir (p : jsstring) (fs : filesystem) : filesystem :=
  match fs !! p with
  | None => <[p := Dir]> fs
  | Some _ => fs
  end.

(** [fs.mkdir(p, { recursive: true })]: it fails on a regular file at [p]
    and on one above [p]; otherwise it creates [p] and every directory
    above it that is missing, and changes nothing that exists. *)
Definition mkdir_recursive (dirname : jsstring -> jsstring) (fs : filesystem)
    (p : jsstring) : result filesystem :=
  match fs !! p with
  | Some (File _) => Throw (EEXIST p)
  | _ =>
      if existsb (is_file fs) (ancestors dirname p) then Throw (ENOTDIR p)
      else Ok (foldr ensure_dir fs (p :: ancestors dirname p))
  end.

(** ** Data model *)

(** Lines 65-93.  The [filter] option only selects the files the callback
    is registered for and is not read by the callback. *)
Record InklecatePluginOptions : Type := {
  count : option bool;
  opt_stats : option bool;
  inklecatePluginsDir : option jsstring;
  tempOutputDir : option jsstring;
}.

(** Truthiness of an optional boolean and of an optional string. *)
Definition truthy (o : option bool) : bool := default false o.

Definition nonempty (o : option jsstring) : bool :=
  match o with
  | Some (_ :: _) => true
  | _ => false
  end.

(** esbuild's [Location] and [PartialMessage], with the fields the plugin
    fills in. *)
Record Location : Type := {
  file : jsstring;
  line : Z;
  lineText : option jsstring;
}.

Record PartialMessage : Type := {
  text : jsstring;
  location : option Location;
}.

(** The union returned by [createESBuildMessageForIssue]. *)
Inductive IssueMessage : Type :=
  | error (m : PartialMessage)
  | warning (m : PartialMessage).

(** Lines 60-63. *)
Record CompileContext : Type := {
  fileCacheForBuild : gmap jsstring jsstring;
  inkContainingDir : jsstring;
}.

Inductive Contents : Type :=
  | Text (s : jsstring)
  | Buffer (b : bytes).

(** The object returned to esbuild; an absent key is [None]. *)
Record OnLoadResult : Type := {
  contents : option Contents;
  errors : list PartialMessage;
  warnings : list PartialMessage;
  loader : option jsstring;
}.

Section Adapter.

(** The non-primitive JSON values, which the [stats] key carries. *)
Variable jsobject : Type.

(** One object parsed from a line of the compiler's standard output; an
    absent key is [None]. *)
Record CompilerOutput : Type := {
  compile_success : option bool;
  out_issues : option (list jsstring);
  export_complete : option bool;
  out_stats : option jsobject;
}.

(** How the promise of lines 156-159 settles. *)
Inductive settlement : Type :=
  | exit
  | onerror (e : exn).

(** A run of the spawned compiler, as the callback observes it: the
    "readable" notifications in order of arrival ([None] for one whose
    trimmed text is empty, the parsed object otherwise), the settlement,
    and the disk it leaves.  A notification whose text is not one JSON
    object makes [JSON.parse] throw inside the stream callback, outside the
    promise of the callback; such runs have no model here. *)
Record ChildProcess : Type := {
  stdout : list (option CompilerOutput);
  settled : settlement;
  disk : filesystem;
}.

(** What the callback takes from Node and from the inklecate-bin package. *)
Record Runtime : Type := {
  path_resolve : list jsstring -> jsstring;
  path_dirname : jsstring -> jsstring;
  utf8_decode : bytes -> jsstring;
  JSON_stringify : jsobject -> jsstring;
  getInklecateBinaryPath : jsstring;
  spawn : jsstring -> list jsstring -> filesystem -> ChildProcess;
}.

Variable rt : Runtime.

(** Lines 37-58. *)
Definition readFileForMessage (file : jsstring) (line : Z) (text : jsstring)
    (context : CompileContext) (fs : filesystem)
    : result (PartialMessage * CompileContext) :=
  let resolvedPath := path_resolve rt [inkContainingDir context; file] in
  fileText ← match fileCacheForBuild context !! resolvedPath with
             | Some cached => Ok cached
             | None => utf8_decode rt <$> readFile fs resolvedPath
             end;
  let context' :=
    {| fileCacheForBuild := <[resolvedPath := fileText]> (fileCacheForBuild context);
       inkContainingDir := inkContainingDir context |} in
  Ok ({| text := text;
         location := Some {| file := resolvedPath;
                             line := line;
                             lineText := index (split 10 fileText) (line - 1) |} |},
      context').

(** Lines 13-35. *)
Definition createESBuildMessageForIssue (issue : jsstring)
    (context : CompileContext) (fs : filesystem)
    : result (IssueMessage * CompileContext) :=
  match regex_match errorRegex issue with
  | Some errorMatch =>
      let file := group errorMatch 1 in
      let line := parseInt (group errorMatch 2) in
      let errorText := group errorMatch 3 in
      '(m, context') ← readFileForMessage file line errorText context fs;
      Ok (error m, context')
  | None =>
      match regex_match warningRegex issue with
      | Some warningMatch =>
          let file := group warningMatch 1 in
          let line := parseInt (group warningMatch 2) in
          let errorText := group warningMatch 3 in
          '(m, context') ← readFileForMessage file line errorText context fs;
          Ok (warning m, context')
      | None => Ok (error {| text := issue; location := None |}, context)
      end
  end.

(** The variables of lines 127-130. *)
Record RunState : Type := {
  success : bool;
  exported : bool;
  issues : list jsstring;
  stats : option jsobject;
}.

Definition initial : RunState :=
  {| success := false; exported := false; issues := []; stats := None |}.

(** Lines 135-153: the "readable" callback. *)
Definition on_readable (st : RunState) (chunk : option CompilerOutput) : RunState :=
  match chunk with
  | None => st
  | Some compilerOutput =>
      let success' := match compile_success compilerOutput with
                      | Some b => b
                      | None => success st
                      end in
      let issues' := match out_issues compilerOutput with
                     | Some l => issues st ++ l
                     | None => issues st
                     end in
      let exported' := match export_complete compilerOutput with
                       | Some b => b
                       | None => exported st
                       end in
      let stats' := match out_stats compilerOutput with
                    | Some o => Some o
                    | None => stats st
                    end in
      {| success := success'; exported := exported';
         issues := issues'; stats := stats' |}
  end.

Definition run_state (p : ChildProcess) : RunState :=
  fold_left on_readable (stdout p) initial.

(** Lines 161-175: the loop over the issues, with the two arrays it
    pushes to. *)
Fixpoint translate (todo : list jsstring) (context : CompileContext)
    (fs : filesystem) (errors warnings : list PartialMessage)
    : result (list PartialMessage * list PartialMessage * CompileContext) :=
  match todo with
  | [] => Ok (errors, warnings, context)
  | issue :: todo' =>
      '(message, context') ← createESBuildMessageForIssue issue context fs;
      let errors' := match message with
                     | error m => errors ++ [m]
                     | warning _ => errors
                     end in
      let warnings' := match message with
                       | warning m => warnings ++ [m]
                       | error _ => warnings
                       end in
      translate todo' context' fs errors' warnings'
  end.

(** Lines 101-120: the argument vector and the output path.  [uuid] is
    the value drawn by [crypto.randomUUID()]. *)
Definition outputDirOf (options : option InklecatePluginOptions) : jsstring :=
  path_resolve rt [default (lit ".") (options ≫= tempOutputDir)].

Definition outputPathOf (options : option InklecatePluginOptions)
    (uuid : jsstring) : jsstring :=
  path_resolve rt [outputDirOf options; uuid ++ lit ".json"].

Definition build_invocation (options : option InklecatePluginOptions)
    (path uuid : jsstring) (fs : filesystem)
    : result (list jsstring * jsstring * filesystem) :=
  let inklecateArgs := [lit "-j"] in
  let inklecateArgs :=
    if truthy (options ≫= count) then inklecateArgs ++ [lit "-c"]
    else inklecateArgs in
  let inklecateArgs :=
    if truthy (options ≫= opt_stats) then inklecateArgs ++ [lit "-s"]
    else inklecateArgs in
  let inklecateArgs :=
    if nonempty (options ≫= inklecatePluginsDir)
    then inklecateArgs ++ [lit "-x"; default [] (options ≫= inklecatePluginsDir)]
    else inklecateArgs in
  let outputDir := path_resolve rt [default (lit ".") (options ≫= tempOutputDir)] in
  fs' ← mkdir_recursive (path_dirname rt) fs outputDir;
  let outputPath := path_resolve rt [outputDir; uuid ++ lit ".json"] in
  let inklecateArgs := inklecateArgs ++ [lit "-o"; outputPath] in
  let inklecateArgs := inklecateArgs ++ [path] in
  Ok (inklecateArgs, outputPath, fs').

(** Lines 156-197: the body of the [try] block, once the process has
    settled. *)
Definition attempt (options : option InklecatePluginOptions)
    (p : ChildProcess) (compileContext : CompileContext)
    (outputPath : jsstring) : result OnLoadResult :=
  match settled p with
  | onerror e => Throw e
  | exit =>
      let st := run_state p in
      '(errors, warnings, _) ← translate (issues st) compileContext (disk p) [] [];
      match stats st, truthy (options ≫= opt_stats) with
      | Some o, true =>
          Ok {| errors := errors; warnings := warnings;
                contents := Some (Text (JSON_stringify rt o));
                loader := Some (lit "json") |}
      | _, _ =>
          if negb (success st) then
            Ok {| errors := errors; warnings := warnings;
                  contents := None; loader := None |}
          else
            contents ← (if exported st
                        then Some ∘ Buffer <$> readFile (disk p) outputPath
                        else Ok None);
            Ok {| contents := contents; warnings := warnings; errors := errors;
                  loader := Some (lit "json") |}
      end
  end.

(** Lines 122-125. *)
Definition compileContextOf (path : jsstring) : CompileContext :=
  {| fileCacheForBuild := ∅; inkContainingDir := path_dirname rt path |}.

(** Lines 100-201: the callback.  It returns what the promise settles to
    and the disk it leaves behind. *)
Definition onLoad (options : option InklecatePluginOptions)
    (path uuid : jsstring) (fs : filesystem)
    : result OnLoadResult * filesystem :=
  match build_invocation options path uuid fs with
  | Throw e => (Throw e, fs)
  | Ok (inklecateArgs, outputPath, fs') =>
      let compileContext := compileContextOf path in
      let inklecateProcess :=
        spawn rt (getInklecateBinaryPath rt) inklecateArgs fs' in
      let outcome := attempt options inklecateProcess compileContext outputPath in
      match rm_force (disk inklecateProcess) outputPath with
      | Ok fs'' => (outcome, fs'')
      | Throw e => (Throw e, disk inklecateProcess)
      end
  end.

End Adapter.

Arguments compile_success {jsobject} _.
Arguments out_issues {jsobject} _.
Arguments export_complete {jsobject} _.
Arguments out_stats {jsobject} _.
Arguments stdout {jsobject} _.
Arguments settled {jsobject} _.
Arguments disk {jsobject} _.
Arguments path_resolve {jsobject} _ _.
Arguments path_dirname {jsobject} _ _.
Arguments utf8_decode {jsobject} _ _.
Arguments JSON_stringify {jsobject} _ _.
Arguments getInklecateBinaryPath {jsobject} _.
Arguments spawn {jsobject} _ _ _ _.
Arguments readFileForMessage {jsobject} rt file line text context fs.
Arguments createESBuildMessageForIssue {jsobject} rt issue context fs.
Arguments success {jsobject} _.
Arguments exported {jsobject} _.
Arguments issues {jsobject} _.
Arguments stats {jsobject} _.
Arguments initial {jsobject}.
Arguments on_readable {jsobject} st chunk.
Arguments run_state {jsobject} p.
Arguments translate {jsobject} rt todo context fs errors warnings.
Arguments outputDirOf {jsobject} rt options.
Arguments outputPathOf {jsobject} rt options uuid.
Arguments build_invocation {jsobject} rt options path uuid fs.
Arguments compileContextOf {jsobject} rt path.
Arguments attempt {jsobject} rt options p compileContext outputPath.
Arguments onLoad {jsobject} rt options path uuid fs.

(** ** Vocabulary of the statements *)

(** The message of one issue, translated on its own from an empty cache. *)
Definition message_of {jsobject} (rt : Runtime jsobject) (dir : jsstring)
    (fs : filesystem) (issue : jsstring) : result IssueMessage :=
  fst <$> createESBuildMessageForIssue rt issue
            {| fileCacheForBuild := ∅; inkContainingDir := dir |} fs.

Definition as_error (m : IssueMessage) : option PartialMessage :=
  match m with error pm => Some pm | warning _ => None end.

Definition as_warning (m : IssueMessage) : option PartialMessage :=
  match m with warning pm => Some pm | error _ => None end.

(** The objects parsed from the output of a process, blank notifications
    left out. *)
Definition events {jsobject} (p : ChildProcess jsobject) : list (CompilerOutput jsobject) :=
  omap id (stdout p).

(** The message of an issue that matches neither pattern. *)
Definition unlocated (issue : jsstring) : PartialMessage :=
  {| text := issue; location := None |}.

(** Every cached text is what reading the cached path from [fs] gives. *)
Definition cache_agrees {jsobject} (rt : Runtime jsobject) (fs : filesystem)
    (cache : gmap jsstring jsstring) : Prop :=
  forall p t, cache !! p = Some t -> utf8_decode rt <$> readFile fs p = Ok t.

(** ** A POSIX runtime, to run the callback on concrete inputs *)

Module Posix.

Definition slash : N := 47.

Definition absolute (p : jsstring) : bool :=
  match p with
  | c :: _ => (c =? slash)%N
  | [] => false
  end.

(** The loop of [path.resolve]: arguments are taken from the right until
    an absolute one is met; empty ones are skipped. *)
Fixpoint resolve_loop (args : list jsstring) : jsstring * bool :=
  match args with
  | [] => ([], false)
  | a :: rest =>
      let '(resolved, resolvedAbsolute) := resolve_loop rest in
      if resolvedAbsolute then (resolved, true)
      else match a with
           | [] => (resolved, false)
           | _ => (a ++ slash :: resolved, absolute a)
           end
  end.

(** Removal of empty, "." and ".." segments of an absolute path. *)
Definition normalize (segments : list jsstring) : list jsstring :=
  fold_left
    (fun kept seg =>
       if bool_decide (seg = []) || bool_decide (seg = lit ".") then kept
       else if bool_decide (seg = lit "..") then removelast kept
       else kept ++ [seg])
    segments [].

(** [parts.join(sep)] *)
Fixpoint join (sep : jsstring) (parts : list jsstring) : jsstring :=
  match parts with
  | [] => []
  | [part] => part
  | part :: rest => part ++ sep ++ join sep rest
  end.

(** [path.resolve(...args)] in a process whose working directory is the
    absolute path [cwd]. *)
Definition resolve (cwd : jsstring) (args : list jsstring) : jsstring :=
  slash :: join [slash] (normalize (split slash (fst (resolve_loop (cwd :: args))))).

Fixpoint drop_while (p : N -> bool) (s : jsstring) : jsstring :=
  match s with
  | c :: s' => if p c then drop_while p s' else s
  | [] => []
  end.

Definition is_slash (c : N) : bool := (c =? slash)%N.

(** [path.dirname(p)]: trailing slashes are skipped, then the last
    segment, and what precedes the slash before it is kept. *)
Definition dirname (p : jsstring) : jsstring :=
  match p with
  | [] => lit "."
  | c :: body =>
      let hasRoot := is_slash c in
      match drop_while (fun x => negb (is_slash x))
              (drop_while is_slash (reverse body)) with
      | [] => if hasRoot then lit "/" else lit "."
      | _ :: kept =>
          if hasRoot && bool_decide (kept = []) then lit "//"
          else c :: reverse kept
      end
  end.

(** Decoding of UTF-8 text, exact on ASCII; any other byte is shown as
    the replacement character. *)
Definition decode (b : bytes) : jsstring :=
  (fun x => let n := Byte.to_N x in if (n <? 128)%N then n else 65533%N) <$> b.

(** Statistics objects: named counters, serialised in the order of their
    keys. *)
Abbreviation counters := (list (string * N)).

Definition quote : N := 34.

Definition stringify_counter (kv : string * N) : jsstring :=
  quote :: lit (fst kv) ++ quote :: lit ":"
    ++ lit (DecimalString.NilEmpty.string_of_uint (N.to_uint (snd kv))).

Definition stringify (o : counters) : jsstring :=
  lit "{" ++ join (lit ",") (stringify_counter <$> o) ++ lit "}".

(** The argument that follows "-o". *)
Fixpoint output_arg (args : list jsstring) : jsstring :=
  match args with
  | a :: rest => if bool_decide (a = lit "-o") then hd [] rest else output_arg rest
  | [] => []
  end.

(** A compiler that prints [out], settles as [s] and leaves [written], if
    any, at the path it was given as output. *)
Definition compiler (out : list (option (CompilerOutput counters)))
    (s : settlement) (written : option node)
    (args : list jsstring) (fs : filesystem) : ChildProcess counters :=
  {| stdout := out;
     settled := s;
     disk := match written with
             | Some n => <[output_arg args := n]> fs
             | None => fs
             end |}.

Definition runtime (cwd : jsstring)
    (inklecate : list jsstring -> filesystem -> ChildProcess counters)
    : Runtime counters :=
  {| path_resolve := resolve cwd;
     path_dirname := dirname;
     utf8_decode := decode;
     JSON_stringify := stringify;
     getInklecateBinaryPath := lit "/opt/inklecate/inklecate";
     spawn := fun _ => inklecate |}.

(** An event with the given keys. *)
Definition event (ok : option bool) (reported : option (list jsstring))
    (done : option bool) (st : option counters) : option (CompilerOutput counters) :=
  Some {| compile_success := ok; out_issues := reported;
          export_complete := done; out_stats := st |}.

Definition text_file (s : string) : node := File (list_byte_of_string s).

End Posix.


(** ** Sample builds

    The inputs on which the statements below are run: a project with one
    story, built from the working directory "/work". *)

Module Sample.

Definition cwd : jsstring := lit "/work".
Definition story : jsstring := lit "/proj/story/main.ink".
Definition uuid : jsstring := lit "3f2c9a".
Definition output : jsstring := lit "/work/3f2c9a.json".

(** Three lines; the second is a blank choice. *)
Definition sources : filesystem :=
  {[ story := Posix.text_file "Once upon a time
*
-> END" ]}.

Definition no_options : option InklecatePluginOptions := None.

Definition with_stats : option InklecatePluginOptions :=
  Some {| count := None; opt_stats := Some true;
          inklecatePluginsDir := None; tempOutputDir := None |}.

Definition with_everything : option InklecatePluginOptions :=
  Some {| count := Some true; opt_stats := Some true;
          inklecatePluginsDir := Some (lit "plugins");
          tempOutputDir := Some (lit "tmp") |}.

Definition blank_choice : jsstring :=
  lit "WARNING: 'main.ink' line 2: Blank choice".

Definition stray : jsstring := lit "Unhandled exception".

Definition nested : jsstring :=
  lit "WARNING: 'a.ink' line 1: ERROR: 'main.ink' line 3: Divert target not found".

Definition missing_include : jsstring :=
  lit "ERROR: 'missing.ink' line 7: Divert target not found".

Definition tally : Posix.counters := [("words"%string, 4%N); ("knots"%string, 0%N)].

(** A successful compilation with one warning and one line that is not a
    diagnostic; the story is exported. *)
Definition compiles : Runtime Posix.counters :=
  Posix.runtime cwd
    (Posix.compiler
       [Posix.event (Some true) (Some [blank_choice; stray]) None None;
        None;
        Posix.event None None (Some true) None]
       exit (Some (Posix.text_file "{}"))).

(** A compilation that fails and still reports statistics. *)
Definition counts : Runtime Posix.counters :=
  Posix.runtime cwd
    (Posix.compiler
       [Posix.event (Some false) (Some [stray]) None None;
        Posix.event None None None (Some tally)]
       exit None).

(** A compilation whose diagnostic names a file that is not there. *)
Definition dangling : Runtime Posix.counters :=
  Posix.runtime cwd
    (Posix.compiler
       [Posix.event (Some false) (Some [stray; missing_include]) None None]
       exit None).

(** A compiler that succeeds without exporting and leaves a directory at
    its output path. *)
Definition obstructs : Runtime Posix.counters :=
  Posix.runtime cwd
    (Posix.compiler [Posix.event (Some true) None None None] exit (Some Dir)).

(** What the builds above are expected to report. *)
Definition blank_choice_message : PartialMessage :=
  {| text := lit "Blank choice";
     location := Some {| file := story; line := 2; lineText := Some (lit "*") |} |}.

Definition nested_message : PartialMessage :=
  {| text := lit "Divert target not found";
     location := Some {| file := story; line := 3;
                         lineText := Some (lit "-> END") |} |}.

Definition story_text : jsstring := lit "Once upon a time
*
-> END".

Definition cached : CompileContext :=
  {| fileCacheForBuild := {[ story := story_text ]};
     inkContainingDir := lit "/proj/story" |}.

End Sample.

(** ** Further vocabulary and sample builds *)

(** The message inside either alternative of the union. *)
Definition payload (m : IssueMessage) : PartialMessage :=
  match m with error pm => pm | warning pm => pm end.

(** The number of newline code units of a text. *)
Definition newlines (s : jsstring) : nat := count_occ N.eq_dec s 10%N.

(** What the callback reads of its options: the truthiness of [count] and
    [stats], the plugins directory if it is a non-empty string, and the
    temp-output directory or ".". *)
Definition effective (options : option InklecatePluginOptions)
    : bool * bool * option jsstring * jsstring :=
  (truthy (options ≫= count),
   truthy (options ≫= opt_stats),
   match options ≫= inklecatePluginsDir with
   | Some (c :: dir) => Some (c :: dir)
   | _ => None
   end,
   default (lit ".") (options ≫= tempOutputDir)).

Module Edge.

(** The binary cannot be started: the process emits "error". *)
Definition unstartable : Runtime Posix.counters :=
  Posix.runtime Sample.cwd
    (Posix.compiler [] (onerror (ChildError (lit "spawn ENOENT"))) None).

(** A compiler that prints nothing but blank output and exits. *)
Definition silent : Runtime Posix.counters :=
  Posix.runtime Sample.cwd (Posix.compiler [None; None] exit None).

(** A compiler that announces an export and writes no file. *)
Definition forgetful : Runtime Posix.counters :=
  Posix.runtime Sample.cwd
    (Posix.compiler
       [Posix.event (Some true) None None None;
        Posix.event None None (Some true) None]
       exit None).

(** A disk on which the working directory is a regular file. *)
Definition blocked : filesystem :=
  {[ Sample.cwd := Posix.text_file "not a directory" ]}.

(** Options that set nothing, key by key. *)
Definition falsy : option InklecatePluginOptions :=
  Some {| count := Some false; opt_stats := None;
          inklecatePluginsDir := Some []; tempOutputDir := Some (lit ".") |}.

(** A temp-output directory below a regular file. *)
Definition below_a_file : option InklecatePluginOptions :=
  Some {| count := None; opt_stats := None; inklecatePluginsDir := None;
          tempOutputDir := Some (lit "blocked/sub") |}.

Definition obstructed : filesystem :=
  {[ lit "/work/blocked" := Posix.text_file "a file" ]}.

(** A diagnostic of two lines. *)
Definition two_lines : jsstring :=
  lit "ERROR: 'main.ink' line 1: Unknown divert
    at the top".

End Edge.

(** * Properties *)

(** ** The matcher finds exactly the occurrences of a pattern *)

Section Matcher.

Implicit Types (s w l g : jsstring) (r : regex) (p : N -> bool).

Lemma strip_prefix_app l s : strip_prefix l (l ++ s) = Some s.
Proof.
  induction l as [|a l IH]; simpl; [done|].
  by rewrite N.eqb_refl.
Qed.

Lemma strip_prefix_Some l s s' : strip_prefix l s = Some s' -> s = l ++ s'.
Proof.
  revert s. induction l as [|a l IH]; intros [|c s]; simpl; try congruence.
  destruct (N.eqb_spec a c) as [->|]; [|done].
  intros H. by rewrite (IH _ H).
Qed.

Lemma span_le_length p s : (span p s <= length s)%nat.
Proof. induction s as [|c s IH]; simpl; [lia|]. destruct (p c); simpl; lia. Qed.

Lemma span_take p s n : (n <= span p s)%nat -> forallb p (take n s) = true.
Proof.
  revert n. induction s as [|c s IH]; intros [|n]; simpl; try done.
  destruct (p c); [|lia].
  intros Hn. apply IH. lia.
Qed.

Lemma span_prefix p g w : forallb p g = true -> (length g <= span p (g ++ w))%nat.
Proof.
  induction g as [|c g IH]; simpl; [lia|].
  intros [Hc Hg]%andb_prop. rewrite Hc. specialize (IH Hg). lia.
Qed.

Lemma longest_first_Some {A} (f : nat -> option A) lo n x :
  longest_first f lo n = Some x ->
  exists k, (lo <= k <= n)%nat /\ f k = Some x.
Proof.
  induction n as [|n IH]; simpl.
  - destruct (Nat.ltb_spec 0 lo); [done|].
    destruct (f 0%nat) eqn:Hf; [|done].
    intros [= ->]. exists 0%nat. split; [lia|done].
  - destruct (Nat.ltb_spec (S n) lo); [done|].
    destruct (f (S n)) eqn:Hf.
    + intros [= ->]. exists (S n). split; [lia|done].
    + intros (k & Hk & Hfk)%IH. exists k. split; [lia|done].
Qed.

Lemma longest_first_is_Some {A} (f : nat -> option A) lo n k :
  (lo <= k <= n)%nat -> is_Some (f k) -> is_Some (longest_first f lo n).
Proof.
  intros Hk Hf. induction n as [|n IH]; simpl.
  - assert (k = 0%nat) as -> by lia.
    destruct (Nat.ltb_spec 0 lo); [lia|].
    destruct Hf as [x ->]. by eexists.
  - destruct (Nat.ltb_spec (S n) lo); [lia|].
    destruct (f (S n)) eqn:Hn; [by eexists|].
    destruct (decide (k = S n)) as [->|Hne].
    + rewrite Hn in Hf. by destruct Hf.
    + apply IH. lia.
Qed.

(** Whatever [match_here] returns is an instance of the pattern at the
    front of the string. *)
Lemma match_here_sound r s groups :
  match_here r s = Some groups ->
  exists w rest, s = w ++ rest /\ denotes r w groups.
Proof.
  revert s groups. induction r as [|a r IH]; intros s groups; simpl.
  - intros [= <-]. by exists [], s.
  - destruct a as [l| |].
    + destruct (strip_prefix l s) as [s'|] eqn:Hl; [|done].
      apply strip_prefix_Some in Hl as ->.
      intros (w & rest & -> & Hw)%IH.
      exists (l ++ w), rest. split; [by rewrite (assoc_L (++))|].
      by exists w.
    + intros (k & Hk & Hf)%longest_first_Some.
      destruct (match_here r (drop k s)) as [gs|] eqn:Hr; [|done].
      injection Hf as <-.
      apply IH in Hr as (w & rest & Hs & Hw).
      exists (take k s ++ w), rest. split.
      * by rewrite <-(assoc_L (++)), <-Hs, take_drop.
      * exists (take k s), gs, w. split_and!; try done.
        apply span_take. lia.
    + intros (k & Hk & Hf)%longest_first_Some.
      destruct (match_here r (drop k s)) as [gs|] eqn:Hr; [|done].
      injection Hf as <-.
      apply IH in Hr as (w & rest & Hs & Hw).
      exists (take k s ++ w), rest. split.
      * by rewrite <-(assoc_L (++)), <-Hs, take_drop.
      * exists (take k s), gs, w. split_and!; try done.
        -- intros Hnil. apply (f_equal length) in Hnil.
           rewrite length_take in Hnil. simpl in Hnil.
           pose proof (span_le_length digit s). lia.
        -- apply span_take. lia.
Qed.

(** Wherever an instance of the pattern starts the string, [match_here]
    returns a match. *)
Lemma match_here_complete r w groups rest :
  denotes r w groups -> is_Some (match_here r (w ++ rest)).
Proof.
  revert w groups. induction r as [|a r IH]; intros w groups; simpl.
  - by eexists.
  - destruct a as [l| |].
    + intros (w' & -> & Hw).
      rewrite <-(assoc_L (++)), strip_prefix_app. by eapply IH.
    + intros (g & gs & w' & -> & -> & Hg & Hw).
      rewrite <-(assoc_L (++)).
      apply (longest_first_is_Some _ _ _ (length g)).
      * split; [lia|]. by apply span_prefix.
      * rewrite drop_app_length.
        destruct (IH _ _ Hw) as [x ->]. by eexists.
    + intros (g & gs & w' & -> & -> & Hne & Hg & Hw).
      rewrite <-(assoc_L (++)).
      apply (longest_first_is_Some _ _ _ (length g)).
      * split; [destruct g; simpl; [done|lia]|]. by apply span_prefix.
      * rewrite drop_app_length.
        destruct (IH _ _ Hw) as [x ->]. by eexists.
Qed.

Lemma regex_match_sound r s groups :
  regex_match r s = Some groups ->
  exists pre w post, s = pre ++ w ++ post /\ denotes r w groups.
Proof.
  induction s as [|c s IH]; simpl.
  - destruct (match_here r []) as [gs|] eqn:Hm; [|done].
    intros [= <-]. apply match_here_sound in Hm as (w & rest & Hs & Hw).
    by exists [], w, rest.
  - destruct (match_here r (c :: s)) as [gs|] eqn:Hm.
    + intros [= <-]. apply match_here_sound in Hm as (w & rest & Hs & Hw).
      by exists [], w, rest.
    + intros (pre & w & post & -> & Hw)%IH.
      by exists (c :: pre), w, post.
Qed.

Lemma regex_match_complete r s : occurs r s -> is_Some (regex_match r s).
Proof.
  intros (pre & w & post & groups & -> & Hw).
  induction pre as [|c pre IH]; simpl.
  - destruct (match_here_complete r w groups post Hw) as [gs Hgs].
    destruct (w ++ post); simpl; rewrite Hgs; by eexists.
  - destruct (match_here r _); [by eexists|done].
Qed.

(** [s.match(r)] is [null] exactly when no substring of [s] is an instance
    of [r]. *)
Lemma regex_match_None r s : regex_match r s = None <-> ~ occurs r s.
Proof.
  split.
  - intros Hn [x Hx]%regex_match_complete. congruence.
  - intros Hno. destruct (regex_match r s) as [gs|] eqn:Hm; [|done].
    destruct Hno. apply regex_match_sound in Hm as (pre & w & post & -> & Hw).
    by exists pre, w, post, gs.
Qed.

(** The shape the two patterns of the source share. *)
Lemma occurs_located kw s :
  occurs [Literal kw; GroupDotStar; Literal (lit "' line ");
          GroupDigitPlus; Literal (lit ": "); GroupDotStar] s <->
  exists pre f d m post,
    s = pre ++ kw ++ f ++ lit "' line " ++ d ++ lit ": " ++ m ++ post /\
    forallb dot f = true /\ d <> [] /\ forallb digit d = true /\
    forallb dot m = true.
Proof.
  split.
  - intros (pre & w & post & groups & -> & Hw). cbn [denotes] in Hw.
    destruct Hw as (w1 & -> & f & gs1 & w2 & -> & -> & Hf & w3 & -> &
                    d & gs2 & w4 & -> & -> & Hd & Hdd & w5 & -> &
                    m & gs3 & w6 & -> & -> & Hm & -> & ->).
    exists pre, f, d, m, post. split_and!; try done.
    by rewrite !app_nil_r, <-!(assoc_L (++)).
  - intros (pre & f & d & m & post & -> & Hf & Hd & Hdd & Hm).
    exists pre, (kw ++ f ++ lit "' line " ++ d ++ lit ": " ++ m), post, [f; d; m].
    split; [by rewrite <-!(assoc_L (++))|].
    cbn [denotes]. eexists; split; [done|].
    exists f, [d; m]; eexists; split_and!; try done.
    eexists; split; [done|].
    exists d, [m]; eexists; split_and!; try done.
    eexists; split; [done|].
    exists m, [], []. by rewrite app_nil_r.
Qed.

End Matcher.

(** ** The diagnostic translator *)

Section Translator.

Context {jsobject : Type} (rt : Runtime jsobject).

Implicit Types (issue file text : jsstring) (context : CompileContext)
  (fs : filesystem) (cache : gmap jsstring jsstring).

Lemma index_None {A} (a : list A) (i : Z) :
  index a i = None <-> i < 0 \/ Z.of_nat (length a) <= i.
Proof.
  unfold index. destruct (Z.ltb_spec i 0); [naive_solver lia|].
  rewrite lookup_ge_None. lia.
Qed.

(** A message does not depend on a cache that agrees with the disk. *)
Lemma readFileForMessage_cache file line text context fs :
  cache_agrees rt fs (fileCacheForBuild context) ->
  fst <$> readFileForMessage rt file line text context fs =
  fst <$> readFileForMessage rt file line text
            {| fileCacheForBuild := ∅;
               inkContainingDir := inkContainingDir context |} fs.
Proof.
  intros Hagree. unfold readFileForMessage; cbn [inkContainingDir fileCacheForBuild].
  rewrite lookup_empty.
  destruct (fileCacheForBuild context !! _) as [t|] eqn:Hc.
  - by rewrite (Hagree _ _ Hc).
  - by destruct (readFile fs _).
Qed.

Lemma readFileForMessage_agrees file line text context fs m context' :
  cache_agrees rt fs (fileCacheForBuild context) ->
  readFileForMessage rt file line text context fs = Ok (m, context') ->
  cache_agrees rt fs (fileCacheForBuild context') /\
  inkContainingDir context' = inkContainingDir context.
Proof.
  intros Hagree. unfold readFileForMessage.
  set (resolvedPath := path_resolve rt _).
  destruct (fileCacheForBuild context !! resolvedPath) as [t|] eqn:Hc; cbn.
  - intros [= <- <-]; cbn. split; [|done].
    by rewrite insert_id.
  - destruct (readFile fs resolvedPath) as [b|e] eqn:Hr; cbn; [|done].
    intros [= <- <-]; cbn. split; [|done].
    intros p t. rewrite lookup_insert. case_decide as Hp.
    + intros [= <-]. subst p. by rewrite Hr.
    + apply Hagree.
Qed.

Lemma createESBuildMessageForIssue_cache issue context fs :
  cache_agrees rt fs (fileCacheForBuild context) ->
  fst <$> createESBuildMessageForIssue rt issue context fs =
  message_of rt (inkContainingDir context) fs issue.
Proof.
  intros Hagree. unfold message_of, createESBuildMessageForIssue.
  destruct (regex_match errorRegex issue) as [g|].
  - pose proof (readFileForMessage_cache (group g 1) (parseInt (group g 2))
                  (group g 3) context fs Hagree) as Heq.
    destruct (readFileForMessage rt _ _ _ context fs) as [[m c]|e],
             (readFileForMessage rt _ _ _ _ fs) as [[m' c']|e'];
      cbn in *; congruence.
  - destruct (regex_match warningRegex issue) as [g|]; [|done].
    pose proof (readFileForMessage_cache (group g 1) (parseInt (group g 2))
                  (group g 3) context fs Hagree) as Heq.
    destruct (readFileForMessage rt _ _ _ context fs) as [[m c]|e],
             (readFileForMessage rt _ _ _ _ fs) as [[m' c']|e'];
      cbn in *; congruence.
Qed.

Lemma createESBuildMessageForIssue_agrees issue context fs m context' :
  cache_agrees rt fs (fileCacheForBuild context) ->
  createESBuildMessageForIssue rt issue context fs = Ok (m, context') ->
  cache_agrees rt fs (fileCacheForBuild context') /\
  inkContainingDir context' = inkContainingDir context.
Proof.
  intros Hagree. unfold createESBuildMessageForIssue.
  destruct (regex_match errorRegex issue) as [g|].
  - destruct (readFileForMessage rt _ _ _ context fs) as [[pm c]|e] eqn:Hr;
      cbn; [|done].
    intros [= <- <-]. by eapply readFileForMessage_agrees.
  - destruct (regex_match warningRegex issue) as [g|].
    + destruct (readFileForMessage rt _ _ _ context fs) as [[pm c]|e] eqn:Hr;
        cbn; [|done].
      intros [= <- <-]. by eapply readFileForMessage_agrees.
    + by intros [= <- <-].
Qed.

Lemma cache_agrees_empty fs : cache_agrees rt fs ∅.
Proof. intros p t. by rewrite lookup_empty. Qed.

(** The loop returns the messages of the issues, each pushed to the end
    of the array of its severity. *)
Lemma translate_spec todo context fs errors0 warnings0 errs warns context' :
  cache_agrees rt fs (fileCacheForBuild context) ->
  translate rt todo context fs errors0 warnings0 = Ok (errs, warns, context') ->
  exists msgs,
    Forall2 (fun issue m => message_of rt (inkContainingDir context) fs issue = Ok m)
      todo msgs /\
    errs = errors0 ++ omap as_error msgs /\
    warns = warnings0 ++ omap as_warning msgs.
Proof.
  revert context errors0 warnings0.
  induction todo as [|issue todo IH]; intros context errors0 warnings0 Hagree; simpl.
  - intros [= <- <- <-]. exists []. by rewrite !app_nil_r.
  - pose proof (createESBuildMessageForIssue_cache issue context fs Hagree) as Hm.
    destruct (createESBuildMessageForIssue rt issue context fs)
      as [[m c]|e] eqn:Hc; cbn in *; [|done].
    destruct (createESBuildMessageForIssue_agrees _ _ _ _ _ Hagree Hc) as [Hc' Hdir].
    intros (msgs & Hall & -> & ->)%IH; [|done].
    rewrite Hdir in Hall.
    exists (m :: msgs). split; [by constructor|].
    destruct m; cbn; by rewrite <-!(assoc_L (++)).
Qed.

Lemma translate_total todo context fs errors0 warnings0 msgs :
  cache_agrees rt fs (fileCacheForBuild context) ->
  Forall2 (fun issue m => message_of rt (inkContainingDir context) fs issue = Ok m)
    todo msgs ->
  exists context',
    translate rt todo context fs errors0 warnings0 =
    Ok (errors0 ++ omap as_error msgs, warnings0 ++ omap as_warning msgs, context').
Proof.
  intros Hagree Hall. revert msgs context errors0 warnings0 Hagree Hall.
  induction todo as [|issue todo IH];
    intros msgs context errors0 warnings0 Hagree Hall.
  - apply Forall2_nil_inv_l in Hall as ->. exists context. simpl.
    by rewrite !app_nil_r.
  - apply Forall2_cons_inv_l in Hall as (m & msgs' & Hm & Hall & ->). simpl.
    rewrite <-(createESBuildMessageForIssue_cache issue context fs Hagree) in Hm.
    destruct (createESBuildMessageForIssue rt issue context fs)
      as [[m' c]|e] eqn:Hc; cbn in *; [|done].
    injection Hm as ->.
    destruct (createESBuildMessageForIssue_agrees _ _ _ _ _ Hagree Hc) as [Hc' Hdir].
    rewrite <-Hdir in Hall.
    destruct (IH msgs' c (match m with error pm => errors0 ++ [pm] | warning _ => errors0 end)
                (match m with warning pm => warnings0 ++ [pm] | error _ => warnings0 end)
                Hc' Hall) as [context' ->].
    exists context'. destruct m; cbn; by rewrite <-!(assoc_L (++)).
Qed.

Lemma partition_length (msgs : list IssueMessage) :
  (length (omap as_error msgs) + length (omap as_warning msgs))%nat = length msgs.
Proof. induction msgs as [|[pm|pm] msgs IH]; cbn in *; lia. Qed.

Lemma unmatched_message issue context fs :
  regex_match errorRegex issue = None ->
  regex_match warningRegex issue = None ->
  createESBuildMessageForIssue rt issue context fs =
  Ok (error (unlocated issue), context).
Proof.
  intros He Hw. unfold createESBuildMessageForIssue. by rewrite He, Hw.
Qed.

Lemma messages_exist (f : jsstring -> result IssueMessage) (todo : list jsstring) :
  (forall issue, issue ∈ todo -> exists m, f issue = Ok m) ->
  exists msgs, Forall2 (fun issue m => f issue = Ok m) todo msgs.
Proof.
  induction todo as [|issue todo IH]; intros Hall.
  - by exists [].
  - destruct (Hall issue) as [m Hm]; [by apply elem_of_cons; left|].
    destruct IH as [msgs Hmsgs].
    { intros other Hother. apply Hall. by apply elem_of_cons; right. }
    exists (m :: msgs). by constructor.
Qed.

(** C4, as the code has it.  An issue that matches neither the error
    pattern nor the warning pattern is translated, without any failure, to
    an error whose text is the issue itself and which has no location.  In
    a list of issues whose other members can each be translated, the loop
    returns, with as many messages as there are issues and this one among
    the errors: nothing is dropped.  If another member cannot be translated
    (the file of a located issue cannot be read), the loop throws and no
    message is returned, for this issue or any other. *)
Theorem unmatched_issue_is_unlocated_error issue context fs :
  regex_match errorRegex issue = None ->
  regex_match warningRegex issue = None ->
  createESBuildMessageForIssue rt issue context fs =
    Ok (error {| text := issue; location := None |}, context) /\
  forall path before after,
    ((forall other, other ∈ before ++ after ->
        exists m, message_of rt (path_dirname rt path) fs other = Ok m) ->
     exists errs warns context',
       translate rt (before ++ issue :: after) (compileContextOf rt path) fs [] [] =
         Ok (errs, warns, context') /\
       (length errs + length warns)%nat = length (before ++ issue :: after) /\
       {| text := issue; location := None |} ∈ errs) /\
    (forall other e, other ∈ before ++ after ->
       message_of rt (path_dirname rt path) fs other = Throw e ->
       exists e',
         translate rt (before ++ issue :: after) (compileContextOf rt path) fs [] [] =
         Throw e').
Proof.
  intros He Hw. split; [by apply unmatched_message|].
  assert (forall dir, message_of rt dir fs issue = Ok (error (unlocated issue))) as Hown.
  { intros dir. unfold message_of. by rewrite unmatched_message. }
  intros path before after. split.
  - intros Hothers.
    destruct (messages_exist (message_of rt (path_dirname rt path) fs) before)
      as [ms1 Hms1].
    { intros other Hother. apply Hothers, elem_of_app. by left. }
    destruct (messages_exist (message_of rt (path_dirname rt path) fs) after)
      as [ms2 Hms2].
    { intros other Hother. apply Hothers, elem_of_app. by right. }
    assert (Forall2 (fun i m => message_of rt (path_dirname rt path) fs i = Ok m)
              (before ++ issue :: after) (ms1 ++ error (unlocated issue) :: ms2))
      as Hall.
    { apply Forall2_app; [done|]. by constructor. }
    destruct (translate_total (before ++ issue :: after) (compileContextOf rt path)
                fs [] [] _ (cache_agrees_empty fs) Hall) as [context' Ht].
    eexists _, _, context'. split; [exact Ht|]. cbn [app]. split.
    + rewrite partition_length. symmetry. by eapply Forall2_length.
    + rewrite omap_app. apply elem_of_app. right. simpl.
      apply elem_of_cons. by left.
  - intros other e Hother Hthrow.
    destruct (translate rt (before ++ issue :: after) (compileContextOf rt path)
                fs [] []) as [[[errs warns] context']|e'] eqn:Ht; [|by exists e'].
    apply translate_spec in Ht as (msgs & Hall & _); [|apply cache_agrees_empty].
    cbn [compileContextOf inkContainingDir] in Hall.
    assert (other ∈ before ++ issue :: after) as Hin.
    { apply elem_of_app. apply elem_of_app in Hother as [?|?]; [by left|].
      right. by apply elem_of_cons; right. }
    apply list_elem_of_lookup in Hin as [i Hi].
    destruct (Forall2_lookup_l _ _ _ _ _ Hall Hi) as (m & _ & Hm).
    congruence.
Qed.

(** C5. The loop translates the issues in list order; the errors it
    returns are the error messages and the warnings the warning messages
    of that sequence, each in the order of the issues they come from. *)
Theorem translate_preserves_order path fs todo errs warns :
  (exists context',
     translate rt todo (compileContextOf rt path) fs [] [] =
     Ok (errs, warns, context')) <->
  exists msgs,
    Forall2 (fun issue m => message_of rt (path_dirname rt path) fs issue = Ok m)
      todo msgs /\
    errs = omap as_error msgs /\
    warns = omap as_warning msgs.
Proof.
  split.
  - intros [context' Ht].
    apply translate_spec in Ht as (msgs & Hall & -> & ->);
      [|apply cache_agrees_empty].
    by exists msgs.
  - intros (msgs & Hall & -> & ->).
    by apply (translate_total todo (compileContextOf rt path) fs [] []);
      [apply cache_agrees_empty|].
Qed.

Lemma readFileForMessage_available file line text cache dir fs fileText :
  let resolvedPath := path_resolve rt [dir; file] in
  cache !! resolvedPath = Some fileText \/
    (cache !! resolvedPath = None /\
     utf8_decode rt <$> readFile fs resolvedPath = Ok fileText) ->
  readFileForMessage rt file line text
    {| fileCacheForBuild := cache; inkContainingDir := dir |} fs =
  Ok ({| text := text;
         location := Some {| file := resolvedPath; line := line;
                             lineText := index (split 10 fileText) (line - 1) |} |},
      {| fileCacheForBuild := <[resolvedPath := fileText]> cache;
         inkContainingDir := dir |}).
Proof.
  intros resolvedPath Hfile. unfold readFileForMessage.
  cbn [inkContainingDir fileCacheForBuild]. fold resolvedPath.
  destruct Hfile as [->|[-> Hread]]; [done|].
  by destruct (readFile fs resolvedPath); cbn in *; simplify_eq.
Qed.


(** C6. For an issue that matches the error or the warning pattern, the
    file named by group 1 is resolved against the directory of the path
    given to the callback.  When the text of that file is available, from
    the cache or from the disk, the message carries the resolved path, the
    line number of group 2 and, as line text, the element at index
    [line - 1] of the text split on newlines; a line number beyond the
    number of lines gives no line text, and no failure. *)
Theorem located_issue_message path issue cache fs groups fileText :
  let dir := inkContainingDir (compileContextOf rt path) in
  let resolvedPath := path_resolve rt [path_dirname rt path; group groups 1] in
  let line := parseInt (group groups 2) in
  let lineText := index (split 10 fileText) (line - 1) in
  let message :=
    {| text := group groups 3;
       location := Some {| file := resolvedPath; line := line;
                           lineText := lineText |} |} in
  regex_match errorRegex issue = Some groups \/
    (regex_match errorRegex issue = None /\
     regex_match warningRegex issue = Some groups) ->
  cache !! resolvedPath = Some fileText \/
    (cache !! resolvedPath = None /\
     utf8_decode rt <$> readFile fs resolvedPath = Ok fileText) ->
  createESBuildMessageForIssue rt issue
    {| fileCacheForBuild := cache; inkContainingDir := dir |} fs =
    Ok (match regex_match errorRegex issue with
        | Some _ => error message
        | None => warning message
        end,
        {| fileCacheForBuild := <[resolvedPath := fileText]> cache;
           inkContainingDir := dir |}) /\
  (Z.of_nat (length (split 10 fileText)) < line -> lineText = None).
Proof.
  intros dir resolvedPath line lineText message Hmatch Hfile. split.
  - unfold createESBuildMessageForIssue.
    destruct Hmatch as [->|[-> ->]];
      by rewrite (readFileForMessage_available _ _ _ _ _ _ fileText Hfile).
  - intros Hline. apply index_None. lia.
Qed.

(** C9. An issue in which the error pattern occurs anywhere is translated
    as an error, whether or not the warning pattern occurs in it too: the
    translator returns the message of [readFileForMessage] for the groups
    of the error pattern as an error, or fails as that call fails, and
    never returns a warning. *)
Theorem error_pattern_takes_precedence issue context fs pre f d rest :
  issue = pre ++ lit "ERROR: '" ++ f ++ lit "' line " ++ d ++ lit ": " ++ rest ->
  forallb dot f = true ->
  d <> [] ->
  forallb digit d = true ->
  (exists groups,
     regex_match errorRegex issue = Some groups /\
     createESBuildMessageForIssue rt issue context fs =
       '(m, context') ← readFileForMessage rt (group groups 1)
                          (parseInt (group groups 2)) (group groups 3) context fs;
       Ok (error m, context')) /\
  (forall m context',
     createESBuildMessageForIssue rt issue context fs <> Ok (warning m, context')).
Proof.
  intros Hissue Hf Hd Hdd.
  destruct (regex_match_complete errorRegex issue) as [groups Hgroups].
  { apply occurs_located. exists pre, f, d, [], rest. by rewrite Hissue. }
  unfold createESBuildMessageForIssue. rewrite Hgroups. split.
  - by exists groups.
  - intros m context'.
    by destruct (readFileForMessage rt _ _ _ context fs) as [[pm c]|e].
Qed.

End Translator.

(** ** The process driver *)

Section Driver.

Context {jsobject : Type}.

Implicit Types (p : ChildProcess jsobject) (st : RunState jsobject).

Lemma on_readable_fold (chunks : list (option (CompilerOutput jsobject))) st :
  let parsed := omap id chunks in
  let st' := fold_left on_readable chunks st in
  success st' = default (success st) (last (omap compile_success parsed)) /\
  exported st' = default (exported st) (last (omap export_complete parsed)) /\
  stats st' = from_option Some (stats st) (last (omap out_stats parsed)) /\
  issues st' = issues st ++ concat (omap out_issues parsed).
Proof.
  induction chunks as [|chunk chunks IH] using rev_ind.
  { cbn. by rewrite app_nil_r. }
  cbn zeta in *. rewrite fold_left_app, !omap_app.
  destruct IH as (Hs & He & Hst & Hi).
  destruct chunk as [ev|]; cbn [fold_left on_readable omap list_omap id].
  - rewrite concat_app.
    destruct ev as [cs oi ec os]; cbn.
    split_and!.
    + destruct cs; cbn; [by rewrite last_snoc|by rewrite app_nil_r].
    + destruct ec; cbn; [by rewrite last_snoc|by rewrite app_nil_r].
    + destruct os; cbn; [by rewrite last_snoc|by rewrite app_nil_r].
    + destruct oi; cbn; rewrite Hi, ?app_nil_r; [|done].
      by rewrite (assoc_L (++)).
  - by rewrite !app_nil_r.
Qed.

Lemma stats_holder p :
  stats (run_state p) = last (omap out_stats (events p)).
Proof.
  destruct (on_readable_fold (stdout p) initial) as (_ & _ & Hst & _).
  unfold run_state, events. rewrite Hst. by destruct (last _).
Qed.

(** C7. After any sequence of parsed events, the success flag is the
    compile-success value of the last event that has one, the export flag
    the export-complete value of the last event that has one, the stats
    holder the stats object of the last event that has one, and the issue
    list the concatenation, in order of arrival, of the issues arrays of
    the events that have one.  The flags start as false and the stats
    holder as undefined. *)
Theorem run_state_accumulates p :
  success (run_state p) = default false (last (omap compile_success (events p))) /\
  exported (run_state p) = default false (last (omap export_complete (events p))) /\
  stats (run_state p) = last (omap out_stats (events p)) /\
  issues (run_state p) = concat (omap out_issues (events p)).
Proof.
  destruct (on_readable_fold (stdout p) initial) as (Hs & He & _ & Hi).
  split_and!; [exact Hs|exact He|apply stats_holder|exact Hi].
Qed.

End Driver.

(** ** The callback *)

Section Callback.

Context {jsobject : Type} (rt : Runtime jsobject).

Implicit Types (options : option InklecatePluginOptions)
  (path uuid out : jsstring) (fs : filesystem) (p : ChildProcess jsobject).

Lemma ensure_dirs_lookup (dirs : list jsstring) fs q :
  foldr ensure_dir fs dirs !! q =
  match fs !! q with
  | Some n => Some n
  | None => if bool_decide (q ∈ dirs) then Some Dir else None
  end.
Proof.
  revert q. induction dirs as [|a dirs IH]; intros q; cbn [foldr].
  - destruct (fs !! q); [done|]. case_bool_decide as Hin; [|done].
    by apply elem_of_nil in Hin.
  - rewrite (bool_decide_ext _ _ (elem_of_cons dirs q a)), bool_decide_or.
    unfold ensure_dir at 1. rewrite (IH a).
    destruct (fs !! a) as [n|] eqn:Hfa.
    + rewrite IH. destruct (fs !! q) eqn:Hq; [done|].
      rewrite (bool_decide_eq_false_2 (q = a)); [done|]. intros ->. congruence.
    + destruct (bool_decide (a ∈ dirs)) eqn:Hin.
      * rewrite IH. destruct (fs !! q) eqn:Hq; [done|].
        destruct (decide (q = a)) as [->|Hne].
        -- by rewrite Hin, orb_true_r.
        -- by rewrite (bool_decide_eq_false_2 (q = a)).
      * destruct (decide (q = a)) as [->|Hne].
        -- rewrite lookup_insert_eq, Hfa. by rewrite bool_decide_eq_true_2.
        -- rewrite lookup_insert_ne, IH by done.
           destruct (fs !! q); [done|].
           by rewrite (bool_decide_eq_false_2 (q = a)).
Qed.

Lemma mkdir_recursive_ok dirname fs dir :
  (forall a b, a ∈ dir :: ancestors dirname dir -> fs !! a <> Some (File b)) ->
  exists fs', mkdir_recursive dirname fs dir = Ok fs' /\
              (forall a, a ∈ dir :: ancestors dirname dir -> fs' !! a = Some Dir) /\
              (forall q, q ∉ dir :: ancestors dirname dir -> fs' !! q = fs !! q) /\
              (forall q, is_Some (fs !! q) -> fs' !! q = fs !! q).
Proof.
  intros Hdir. exists (foldr ensure_dir fs (dir :: ancestors dirname dir)).
  split_and!.
  - unfold mkdir_recursive.
    assert (existsb (is_file fs) (ancestors dirname dir) = false) as ->.
    { apply not_true_is_false.
      intros (a & Ha%list_elem_of_In & Hfile)%existsb_exists.
      unfold is_file in Hfile.
      destruct (fs !! a) as [[b|]|] eqn:Hfa; try done.
      destruct (Hdir a b); [by apply elem_of_cons; right|done]. }
    destruct (fs !! dir) as [[b|]|] eqn:Hfs; [|done|done].
    destruct (Hdir dir b); [by apply elem_of_cons; left|done].
  - intros a Ha. rewrite ensure_dirs_lookup.
    destruct (fs !! a) as [[b|]|] eqn:Hfa; [by destruct (Hdir a b)|done|].
    by rewrite bool_decide_eq_true_2.
  - intros q Hq. rewrite ensure_dirs_lookup.
    destruct (fs !! q); [done|]. by rewrite bool_decide_eq_false_2.
  - intros q [n Hn]. rewrite ensure_dirs_lookup. by rewrite Hn.
Qed.

Lemma mkdir_recursive_below_a_file dirname fs dir a b :
  (forall b', fs !! dir <> Some (File b')) ->
  a ∈ ancestors dirname dir ->
  fs !! a = Some (File b) ->
  mkdir_recursive dirname fs dir = Throw (ENOTDIR dir).
Proof.
  intros Hdir Ha Hfile. unfold mkdir_recursive.
  assert (existsb (is_file fs) (ancestors dirname dir) = true) as ->.
  { apply existsb_exists. exists a. split; [by apply list_elem_of_In|].
    unfold is_file. by rewrite Hfile. }
  destruct (fs !! dir) as [[b'|]|] eqn:Hfs; [by destruct (Hdir b')|done|done].
Qed.

(** C8. The argument vector is "-j", then "-c" when [count] is set, "-s"
    when [stats] is set, "-x" and the plugins directory when
    [inklecatePluginsDir] is set, then "-o" and the output path, then the
    input path, in this order and with nothing else.  An option is set
    when it is truthy, as the source tests it: a boolean that is true, a
    string that is not empty.  The output path is the resolution of
    "<uuid>.json" against the resolved temp-output directory ("." when
    none is given).  That directory and the directories above it are
    directories on the disk afterwards, created where they were missing;
    nothing that existed is changed and no other path is touched.  The
    hypothesis excludes the failures of the directory creation: a regular
    file at the temp-output directory or above it. *)
Theorem invocation_arguments options path uuid fs :
  let outputDir := path_resolve rt [default (lit ".") (options ≫= tempOutputDir)] in
  let outputPath := path_resolve rt [outputDir; uuid ++ lit ".json"] in
  let created := outputDir :: ancestors (path_dirname rt) outputDir in
  (forall a b, a ∈ created -> fs !! a <> Some (File b)) ->
  exists fs',
    build_invocation rt options path uuid fs =
      Ok ([lit "-j"]
            ++ (if truthy (options ≫= count) then [lit "-c"] else [])
            ++ (if truthy (options ≫= opt_stats) then [lit "-s"] else [])
            ++ match options ≫= inklecatePluginsDir with
               | Some (c :: dir) => [lit "-x"; c :: dir]
               | _ => []
               end
            ++ [lit "-o"; outputPath]
            ++ [path],
          outputPath, fs') /\
    fs' !! outputDir = Some Dir /\
    (forall a, a ∈ created -> fs' !! a = Some Dir) /\
    (forall q, q ∉ created -> fs' !! q = fs !! q) /\
    (forall q, is_Some (fs !! q) -> fs' !! q = fs !! q).
Proof.
  intros outputDir outputPath created Hdir.
  destruct (mkdir_recursive_ok (path_dirname rt) fs outputDir Hdir)
    as (fs' & Hmk & Hd & Hrest & Hkept).
  exists fs'. split_and!; [|apply Hd; by apply elem_of_cons; left|done|done|done].
  unfold build_invocation. fold outputDir. rewrite Hmk. cbn. fold outputPath.
  do 2 f_equal.
  destruct (truthy (options ≫= count)), (truthy (options ≫= opt_stats)),
    (options ≫= inklecatePluginsDir) as [[|c dir]|]; reflexivity.
Qed.

(** With a regular file above the temp-output directory, the directory
    creation fails, no argument vector is completed and nothing is
    spawned: the callback rejects and leaves the disk as it found it. *)
Lemma invocation_fails_below_a_file options path uuid fs a b :
  let outputDir := path_resolve rt [default (lit ".") (options ≫= tempOutputDir)] in
  (forall b', fs !! outputDir <> Some (File b')) ->
  a ∈ ancestors (path_dirname rt) outputDir ->
  fs !! a = Some (File b) ->
  build_invocation rt options path uuid fs = Throw (ENOTDIR outputDir) /\
  onLoad rt options path uuid fs = (Throw (ENOTDIR outputDir), fs).
Proof.
  intros outputDir Hdir Ha Hfile.
  assert (build_invocation rt options path uuid fs = Throw (ENOTDIR outputDir)) as Hb.
  { unfold build_invocation. fold outputDir.
    by rewrite (mkdir_recursive_below_a_file _ _ _ a b). }
  split; [done|]. unfold onLoad. by rewrite Hb.
Qed.

Lemma rm_force_ok fs out :
  fs !! out <> Some Dir ->
  rm_force fs out = Ok (delete out fs).
Proof.
  intros Hout. unfold rm_force.
  destruct (fs !! out) as [[b|]|] eqn:Hfs; [done|done|].
  by rewrite delete_id.
Qed.

Lemma onLoad_unfold options path uuid fs args out fs' :
  build_invocation rt options path uuid fs = Ok (args, out, fs') ->
  let p := spawn rt (getInklecateBinaryPath rt) args fs' in
  onLoad rt options path uuid fs =
  match rm_force (disk p) out with
  | Ok fs'' => (attempt rt options p (compileContextOf rt path) out, fs'')
  | Throw e => (Throw e, disk p)
  end.
Proof. intros Hb p. unfold onLoad. by rewrite Hb. Qed.

(** C1, as the code has it.  Once the process is spawned, whatever the
    [try] block does (a result with contents, a result with errors only,
    or a failure from the settled process, from the translation or from
    reading the output), removing the output path is the last step.  If
    the path is not a directory the callback settles as the [try] block
    did and the path is absent afterwards; if nothing is there, the disk
    is left as it was and nothing fails.  If the removal itself fails, as
    it does on a directory, that failure is what the callback settles
    to. *)
Theorem cleanup_is_last_step options path uuid fs args out fs' :
  build_invocation rt options path uuid fs = Ok (args, out, fs') ->
  let p := spawn rt (getInklecateBinaryPath rt) args fs' in
  let outcome := attempt rt options p (compileContextOf rt path) out in
  (disk p !! out <> Some Dir ->
     onLoad rt options path uuid fs = (outcome, delete out (disk p)) /\
     delete out (disk p) !! out = None) /\
  (disk p !! out = None ->
     onLoad rt options path uuid fs = (outcome, disk p)) /\
  (disk p !! out = Some Dir ->
     onLoad rt options path uuid fs = (Throw (EISDIR out), disk p)).
Proof.
  intros Hb p outcome. rewrite (onLoad_unfold _ _ _ _ _ _ _ Hb). fold p.
  split_and!.
  - intros Hout. rewrite rm_force_ok by done. split; [done|].
    apply lookup_delete_eq.
  - intros Hout. unfold rm_force. by rewrite Hout.
  - intros Hout. unfold rm_force. by rewrite Hout.
Qed.

(** C2. When the [stats] option is set and at least one event carried a
    stats object, the result has the serialisation of the last such
    object as contents, the loader "json", and the translated errors and
    warnings.  Neither the success flag nor the export flag is looked at,
    and the result is the same for every output path, whatever is or is
    not on the disk there: the output file is not read. *)
Theorem stats_branch options path uuid fs args out fs' o errs warns context' :
  build_invocation rt options path uuid fs = Ok (args, out, fs') ->
  let p := spawn rt (getInklecateBinaryPath rt) args fs' in
  let served :=
    {| contents := Some (Text (JSON_stringify rt o));
       errors := errs; warnings := warns; loader := Some (lit "json") |} in
  settled p = exit ->
  truthy (options ≫= opt_stats) = true ->
  last (omap out_stats (events p)) = Some o ->
  translate rt (issues (run_state p)) (compileContextOf rt path) (disk p) [] [] =
    Ok (errs, warns, context') ->
  (forall outputPath,
     attempt rt options p (compileContextOf rt path) outputPath = Ok served) /\
  (disk p !! out <> Some Dir ->
     onLoad rt options path uuid fs = (Ok served, delete out (disk p))).
Proof.
  intros Hb p served Hexit Hopt Hstats Htr.
  assert (forall outputPath,
    attempt rt options p (compileContextOf rt path) outputPath = Ok served) as Hatt.
  { intros outputPath. unfold attempt. rewrite Hexit, Htr. cbn.
    by rewrite stats_holder, Hstats, Hopt. }
  split; [done|]. intros Hout.
  rewrite (onLoad_unfold _ _ _ _ _ _ _ Hb). fold p.
  by rewrite rm_force_ok, Hatt.
Qed.

(** C3. When the stats branch is not taken (the [stats] option is not set
    or no event carried a stats object): with the success flag false the
    result has the translated errors and warnings and neither contents
    nor loader; with the success flag true it has the loader "json", the
    translated errors and warnings and, as contents, all the bytes of the
    output file if the export flag is true, nothing if it is false. *)
Theorem story_branch options path uuid fs args out fs' errs warns context' :
  build_invocation rt options path uuid fs = Ok (args, out, fs') ->
  let p := spawn rt (getInklecateBinaryPath rt) args fs' in
  let outcome := attempt rt options p (compileContextOf rt path) out in
  settled p = exit ->
  truthy (options ≫= opt_stats) = false \/
    last (omap out_stats (events p)) = None ->
  translate rt (issues (run_state p)) (compileContextOf rt path) (disk p) [] [] =
    Ok (errs, warns, context') ->
  (success (run_state p) = false ->
     outcome = Ok {| contents := None; errors := errs; warnings := warns;
                     loader := None |}) /\
  (success (run_state p) = true -> exported (run_state p) = true ->
     forall b, disk p !! out = Some (File b) ->
     outcome = Ok {| contents := Some (Buffer b); errors := errs;
                     warnings := warns; loader := Some (lit "json") |}) /\
  (success (run_state p) = true -> exported (run_state p) = false ->
     outcome = Ok {| contents := None; errors := errs; warnings := warns;
                     loader := Some (lit "json") |}) /\
  (disk p !! out <> Some Dir ->
     onLoad rt options path uuid fs = (outcome, delete out (disk p))).
Proof.
  intros Hb p outcome Hexit Hnostats Htr.
  assert (outcome =
    if negb (success (run_state p)) then
      Ok {| contents := None; errors := errs; warnings := warns; loader := None |}
    else
      contents ← (if exported (run_state p)
                  then Some ∘ Buffer <$> readFile (disk p) out
                  else Ok None);
      Ok {| contents := contents; errors := errs; warnings := warns;
            loader := Some (lit "json") |}) as Hout.
  { unfold outcome, attempt. rewrite Hexit, Htr. cbn.
    destruct Hnostats as [Hopt|Hlast].
    - rewrite Hopt. by destruct (stats (run_state p)).
    - by rewrite stats_holder, Hlast. }
  split_and!.
  - intros Hs. by rewrite Hout, Hs.
  - intros Hs He b Hfile. rewrite Hout, Hs, He. unfold readFile. by rewrite Hfile.
  - intros Hs He. by rewrite Hout, Hs, He.
  - intros Hdir. rewrite (onLoad_unfold _ _ _ _ _ _ _ Hb). fold p.
    by rewrite rm_force_ok.
Qed.

Lemma translate_app todo1 todo2 context fs errors0 warnings0 :
  translate rt (todo1 ++ todo2) context fs errors0 warnings0 =
  '(errors1, warnings1, context1) ← translate rt todo1 context fs errors0 warnings0;
  translate rt todo2 context1 fs errors1 warnings1.
Proof.
  revert context errors0 warnings0.
  induction todo1 as [|issue todo1 IH]; intros context errors0 warnings0; [done|].
  simpl. destruct (createESBuildMessageForIssue rt issue context fs) as [[m c]|e];
    cbn; [apply IH|done].
Qed.

Lemma translate_context todo context fs errors0 warnings0 errs warns context' :
  cache_agrees rt fs (fileCacheForBuild context) ->
  translate rt todo context fs errors0 warnings0 = Ok (errs, warns, context') ->
  cache_agrees rt fs (fileCacheForBuild context') /\
  inkContainingDir context' = inkContainingDir context.
Proof.
  revert context errors0 warnings0.
  induction todo as [|issue todo IH]; intros context errors0 warnings0 Hagree; simpl.
  - by intros [= <- <- <-].
  - destruct (createESBuildMessageForIssue rt issue context fs)
      as [[m c]|e] eqn:Hc; cbn; [|done].
    destruct (createESBuildMessageForIssue_agrees _ _ _ _ _ _ Hagree Hc) as [Hc' Hdir].
    intros [Ha Hd]%IH; [|done]. split; [done|congruence].
Qed.

(** C10. If an issue matches the error or the warning pattern, the path
    it resolves to is not in the cache when its turn comes and cannot be
    read from the disk, then the read failure is what the [try] block
    ends with: no result, hence no diagnostics, is returned.  The output
    path is removed all the same, and the callback settles to that
    failure. *)
Theorem unreadable_source_rejects options path uuid fs args out fs'
    before issue after groups errs warns context' e :
  build_invocation rt options path uuid fs = Ok (args, out, fs') ->
  let p := spawn rt (getInklecateBinaryPath rt) args fs' in
  let resolvedPath := path_resolve rt [path_dirname rt path; group groups 1] in
  settled p = exit ->
  issues (run_state p) = before ++ issue :: after ->
  translate rt before (compileContextOf rt path) (disk p) [] [] =
    Ok (errs, warns, context') ->
  regex_match errorRegex issue = Some groups \/
    (regex_match errorRegex issue = None /\
     regex_match warningRegex issue = Some groups) ->
  fileCacheForBuild context' !! resolvedPath = None ->
  readFile (disk p) resolvedPath = Throw e ->
  attempt rt options p (compileContextOf rt path) out = Throw e /\
  (disk p !! out <> Some Dir ->
     onLoad rt options path uuid fs = (Throw e, delete out (disk p)) /\
     delete out (disk p) !! out = None).
Proof.
  intros Hb p resolvedPath Hexit Hissues Hbefore Hmatch Hcache Hread.
  assert (attempt rt options p (compileContextOf rt path) out = Throw e) as Hatt.
  { unfold attempt. rewrite Hexit, Hissues, translate_app, Hbefore. cbn.
    destruct (translate_context before (compileContextOf rt path) (disk p)
                [] [] errs warns context' (cache_agrees_empty rt (disk p)) Hbefore)
      as [_ Hdir].
    unfold createESBuildMessageForIssue, readFileForMessage.
    rewrite Hdir. cbn [compileContextOf inkContainingDir].
    destruct Hmatch as [->|[-> ->]]; fold resolvedPath;
      by rewrite Hcache, Hread. }
  split; [done|]. intros Hout.
  rewrite (onLoad_unfold _ _ _ _ _ _ _ Hb). fold p.
  rewrite rm_force_ok, Hatt by done. split; [done|]. apply lookup_delete_eq.
Qed.

End Callback.

(** ** The POSIX runtime resolves diagnostics without the working directory *)

Section PosixPaths.

Implicit Types (cwd dir file path : jsstring).

Lemma resolve_loop_absolute cwd dir file :
  Posix.absolute dir = true ->
  Posix.resolve_loop [cwd; dir; file] = Posix.resolve_loop [dir; file].
Proof.
  intros Hdir. cbn [Posix.resolve_loop].
  destruct file as [|c file]; [|destruct (Posix.absolute (c :: file))];
    destruct dir as [|d dir]; try done; cbn in Hdir |- *; by rewrite Hdir.
Qed.

Lemma dirname_absolute path :
  Posix.absolute path = true -> Posix.absolute (Posix.dirname path) = true.
Proof.
  destruct path as [|c body]; [done|]. cbn [Posix.absolute]. intros Hc.
  unfold Posix.dirname, Posix.is_slash. rewrite Hc.
  destruct (Posix.drop_while _ _) as [|x kept]; [done|].
  cbn [andb]. by case_bool_decide.
Qed.

(** With an absolute path given to the callback, as esbuild gives, the
    path a diagnostic resolves to is the same in every working
    directory. *)
Lemma resolution_ignores_cwd cwd cwd' path file :
  Posix.absolute path = true ->
  Posix.resolve cwd [Posix.dirname path; file] =
  Posix.resolve cwd' [Posix.dirname path; file].
Proof.
  intros Hpath%dirname_absolute. unfold Posix.resolve.
  by rewrite !resolve_loop_absolute.
Qed.

End PosixPaths.

(** ** The statements on the sample builds *)

(** C8 on a build with every option set. *)
Lemma invocation_arguments_witness :
  exists fs',
    build_invocation Sample.compiles Sample.with_everything Sample.story
      Sample.uuid Sample.sources =
      Ok ([lit "-j"; lit "-c"; lit "-s"; lit "-x"; lit "plugins";
           lit "-o"; lit "/work/tmp/3f2c9a.json"; Sample.story],
          lit "/work/tmp/3f2c9a.json", fs') /\
    fs' !! lit "/work/tmp" = Some Dir /\
    fs' !! lit "/work" = Some Dir /\
    fs' !! Sample.story = Sample.sources !! Sample.story.
Proof.
  destruct (invocation_arguments Sample.compiles Sample.with_everything
              Sample.story Sample.uuid Sample.sources)
    as (fs' & Hb & Hd & Hall & _ & Hkept).
  { intros a b Ha. change (a ∈ [lit "/work/tmp"; lit "/work"]) in Ha.
    apply elem_of_cons in Ha as [->|Ha]; [vm_compute; discriminate|].
    apply elem_of_cons in Ha as [->|Ha]; [vm_compute; discriminate|].
    by apply elem_of_nil in Ha. }
  exists fs'. split_and!; [exact Hb|exact Hd| |].
  - apply Hall. change (lit "/work" ∈ [lit "/work/tmp"; lit "/work"]).
    apply elem_of_cons; right. apply elem_of_cons; by left.
  - apply Hkept. by eexists.
Defined.

(** C1 on the build that exports a story: the output file is gone. *)
Lemma cleanup_is_last_step_witness :
  snd (onLoad Sample.compiles Sample.no_options Sample.story Sample.uuid
         Sample.sources) !! Sample.output = None.
Proof.
  destruct (cleanup_is_last_step Sample.compiles Sample.no_options Sample.story
              Sample.uuid Sample.sources _ _ _ eq_refl) as [Hfile _].
  destruct Hfile as [-> Hgone].
  { vm_compute. discriminate. }
  exact Hgone.
Defined.

(** C1, the claim as it is written: here the [try] block returns a result
    and the removal of the output path fails; the failure is not
    suppressed, the callback settles to it and the path is still there. *)
Lemma cleanup_failure_is_not_suppressed :
  attempt Sample.obstructs Sample.no_options
    (spawn Sample.obstructs (getInklecateBinaryPath Sample.obstructs)
       [lit "-j"; lit "-o"; Sample.output; Sample.story]
       (<[Sample.cwd := Dir]> Sample.sources))
    (compileContextOf Sample.obstructs Sample.story) Sample.output =
    Ok {| contents := None; errors := []; warnings := [];
          loader := Some (lit "json") |} /\
  fst (onLoad Sample.obstructs Sample.no_options Sample.story Sample.uuid
         Sample.sources) = Throw (EISDIR Sample.output) /\
  snd (onLoad Sample.obstructs Sample.no_options Sample.story Sample.uuid
         Sample.sources) !! Sample.output = Some Dir.
Proof. split_and!; vm_compute; reflexivity. Qed.

(** C2 on a failed compilation that reports statistics. *)
Lemma stats_branch_witness :
  success (run_state (spawn Sample.counts (getInklecateBinaryPath Sample.counts)
                        [lit "-j"; lit "-s"; lit "-o"; Sample.output; Sample.story]
                        (<[Sample.cwd := Dir]> Sample.sources))) = false /\
  fst (onLoad Sample.counts Sample.with_stats Sample.story Sample.uuid
         Sample.sources) =
    Ok {| contents := Some (Text (Posix.stringify Sample.tally));
          errors := [unlocated Sample.stray]; warnings := [];
          loader := Some (lit "json") |}.
Proof.
  split; [reflexivity|].
  destruct (stats_branch Sample.counts Sample.with_stats Sample.story Sample.uuid
              Sample.sources _ _ _ Sample.tally [unlocated Sample.stray] [] _
              eq_refl eq_refl eq_refl eq_refl eq_refl) as [_ ->].
  - reflexivity.
  - vm_compute. discriminate.
Defined.

(** C3 on the build that exports a story. *)
Lemma story_branch_witness :
  fst (onLoad Sample.compiles Sample.no_options Sample.story Sample.uuid
         Sample.sources) =
    Ok {| contents := Some (Buffer (list_byte_of_string "{}"));
          errors := [unlocated Sample.stray];
          warnings := [Sample.blank_choice_message];
          loader := Some (lit "json") |}.
Proof.
  destruct (story_branch Sample.compiles Sample.no_options Sample.story Sample.uuid
              Sample.sources _ _ _ [unlocated Sample.stray]
              [Sample.blank_choice_message] _
              eq_refl eq_refl (or_introl eq_refl) eq_refl)
    as (_ & Hexported & _ & ->).
  - exact (Hexported eq_refl eq_refl _ eq_refl).
  - vm_compute. discriminate.
Defined.

(** C4 on a line that is not a diagnostic, between a warning and another
    such line: the loop returns three messages. *)
Lemma unmatched_issue_is_unlocated_error_witness :
  createESBuildMessageForIssue Sample.compiles Sample.stray Sample.cached
    Sample.sources =
    Ok (error {| text := Sample.stray; location := None |}, Sample.cached) /\
  exists errs warns context',
    translate Sample.compiles [Sample.blank_choice; Sample.stray; lit "Killed"]
      (compileContextOf Sample.compiles Sample.story) Sample.sources [] [] =
      Ok (errs, warns, context') /\
    (length errs + length warns)%nat = 3%nat /\
    {| text := Sample.stray; location := None |} ∈ errs.
Proof.
  destruct (unmatched_issue_is_unlocated_error Sample.compiles Sample.stray
              Sample.cached Sample.sources eq_refl eq_refl) as [Hmessage Hloop].
  split; [exact Hmessage|].
  apply (proj1 (Hloop Sample.story [Sample.blank_choice] [lit "Killed"])).
  intros other Hother.
  apply elem_of_cons in Hother as [->|Hother]; [by eexists|].
  apply elem_of_cons in Hother as [->|Hother]; [by eexists|].
  by apply elem_of_nil in Hother.
Defined.

(** C4, the claim as it is written: here the compiler reports a line that
    is not a diagnostic and then an error in a file that does not exist.
    The first issue matches neither pattern, yet no message is returned for
    it: the loop throws on the second and the callback rejects. *)
Lemma unmatched_issue_is_dropped_on_failure :
  regex_match errorRegex Sample.stray = None /\
  regex_match warningRegex Sample.stray = None /\
  issues (run_state (spawn Sample.dangling (getInklecateBinaryPath Sample.dangling)
                       [lit "-j"; lit "-o"; Sample.output; Sample.story]
                       (<[Sample.cwd := Dir]> Sample.sources))) =
    [Sample.stray; Sample.missing_include] /\
  translate Sample.dangling [Sample.stray; Sample.missing_include]
    (compileContextOf Sample.dangling Sample.story)
    (<[Sample.cwd := Dir]> Sample.sources) [] [] =
    Throw (ENOENT (lit "/proj/story/missing.ink")) /\
  fst (onLoad Sample.dangling Sample.no_options Sample.story Sample.uuid
         Sample.sources) = Throw (ENOENT (lit "/proj/story/missing.ink")).
Proof. split_and!; vm_compute; reflexivity. Qed.

(** C5 on an unlocated error, a warning and an error, in this order. *)
Lemma translate_preserves_order_witness :
  exists msgs,
    Forall2 (fun issue m =>
               message_of Sample.compiles (lit "/proj/story") Sample.sources issue = Ok m)
      [Sample.stray; Sample.blank_choice; Sample.nested] msgs /\
    [unlocated Sample.stray; Sample.nested_message] = omap as_error msgs /\
    [Sample.blank_choice_message] = omap as_warning msgs.
Proof.
  apply (proj1 (translate_preserves_order Sample.compiles Sample.story Sample.sources
                  [Sample.stray; Sample.blank_choice; Sample.nested]
                  [unlocated Sample.stray; Sample.nested_message]
                  [Sample.blank_choice_message])).
  eexists. reflexivity.
Defined.

(** C6 on the blank-choice warning, read from the disk. *)
Lemma located_issue_message_witness :
  createESBuildMessageForIssue Sample.compiles Sample.blank_choice
    (compileContextOf Sample.compiles Sample.story) Sample.sources =
    Ok (warning Sample.blank_choice_message, Sample.cached).
Proof.
  destruct (located_issue_message Sample.compiles Sample.story Sample.blank_choice
              ∅ Sample.sources [lit "main.ink"; lit "2"; lit "Blank choice"]
              Sample.story_text) as [Hmessage _].
  - right. split; reflexivity.
  - right. split; reflexivity.
  - exact Hmessage.
Defined.

(** C9 on a warning line whose message has the shape of an error. *)
Lemma error_pattern_takes_precedence_witness :
  is_Some (regex_match warningRegex Sample.nested) /\
  createESBuildMessageForIssue Sample.compiles Sample.nested
    (compileContextOf Sample.compiles Sample.story) Sample.sources =
    Ok (error Sample.nested_message, Sample.cached) /\
  forall m context',
    createESBuildMessageForIssue Sample.compiles Sample.nested
      (compileContextOf Sample.compiles Sample.story) Sample.sources <>
    Ok (warning m, context').
Proof.
  destruct (error_pattern_takes_precedence Sample.compiles Sample.nested
              (compileContextOf Sample.compiles Sample.story) Sample.sources
              (lit "WARNING: 'a.ink' line 1: ") (lit "main.ink") (lit "3")
              (lit "Divert target not found") eq_refl eq_refl
              ltac:(discriminate) eq_refl) as [_ Hnever].
  split_and!; [by eexists|reflexivity|exact Hnever].
Defined.

(** C10 on a diagnostic that names a file that does not exist. *)
Lemma unreadable_source_rejects_witness :
  fst (onLoad Sample.dangling Sample.no_options Sample.story Sample.uuid
         Sample.sources) = Throw (ENOENT (lit "/proj/story/missing.ink")) /\
  snd (onLoad Sample.dangling Sample.no_options Sample.story Sample.uuid
         Sample.sources) !! Sample.output = None.
Proof.
  destruct (unreadable_source_rejects Sample.dangling Sample.no_options Sample.story
              Sample.uuid Sample.sources _ _ _
              [Sample.stray] Sample.missing_include []
              [lit "missing.ink"; lit "7"; lit "Divert target not found"]
              [unlocated Sample.stray] [] _ (ENOENT (lit "/proj/story/missing.ink"))
              eq_refl eq_refl eq_refl eq_refl (or_introl eq_refl) eq_refl eq_refl)
    as [_ Hload].
  destruct Hload as [-> Hgone].
  - vm_compute. discriminate.
  - split; [reflexivity|exact Hgone].
Defined.

(** A diagnostic for a line past the end of the file: the message is
    returned, without line text. *)
Example line_past_the_end :
  createESBuildMessageForIssue Sample.compiles
    (lit "ERROR: 'main.ink' line 4: Unexpected end of file")
    (compileContextOf Sample.compiles Sample.story) Sample.sources =
  Ok (error {| text := lit "Unexpected end of file";
               location := Some {| file := Sample.story; line := 4;
                                   lineText := None |} |},
      Sample.cached).
Proof. reflexivity. Qed.

(** A line number of zero selects index -1, which no array has. *)
Example line_zero :
  createESBuildMessageForIssue Sample.compiles
    (lit "WARNING: 'main.ink' line 0: Stray text")
    (compileContextOf Sample.compiles Sample.story) Sample.sources =
  Ok (warning {| text := lit "Stray text";
                 location := Some {| file := Sample.story; line := 0;
                                     lineText := None |} |},
      Sample.cached).
Proof. reflexivity. Qed.

(** The first group is greedy: it runs to the last place where the rest of
    the pattern still matches. *)
Example greedy_file_group :
  regex_match warningRegex Sample.nested =
  Some [lit "a.ink' line 1: ERROR: 'main.ink"; lit "3";
        lit "Divert target not found"].
Proof. reflexivity. Qed.

(** * Further properties of the callback *)

Section CallbackEdges.

Context {jsobject : Type} (rt : Runtime jsobject).

Implicit Types (options : option InklecatePluginOptions)
  (path uuid out : jsstring) (fs : filesystem) (p : ChildProcess jsobject).

(** X1. When the process emits "error" before it exits, the callback
    rejects with that error, whatever the process printed: nothing is
    translated and nothing is returned.  The output path is removed all the
    same. *)
Theorem process_error_rejects options path uuid fs args out fs' e :
  build_invocation rt options path uuid fs = Ok (args, out, fs') ->
  let p := spawn rt (getInklecateBinaryPath rt) args fs' in
  settled p = onerror e ->
  attempt rt options p (compileContextOf rt path) out = Throw e /\
  (disk p !! out <> Some Dir ->
     onLoad rt options path uuid fs = (Throw e, delete out (disk p))).
Proof.
  intros Hb p Herr.
  assert (attempt rt options p (compileContextOf rt path) out = Throw e) as Hatt.
  { unfold attempt. by rewrite Herr. }
  split; [done|]. intros Hout.
  rewrite (onLoad_unfold _ _ _ _ _ _ _ _ Hb). fold p.
  by rewrite rm_force_ok, Hatt.
Qed.

(** X2. When the temp-output directory cannot be created because a regular
    file has its path, the callback rejects with that failure before any
    process is spawned, and leaves the disk as it found it: no removal is
    attempted. *)
Theorem mkdir_failure_rejects options path uuid fs b :
  fs !! outputDirOf rt options = Some (File b) ->
  onLoad rt options path uuid fs = (Throw (EEXIST (outputDirOf rt options)), fs).
Proof.
  intros Hfile. unfold onLoad, build_invocation, mkdir_recursive.
  fold (outputDirOf rt options). by rewrite Hfile.
Qed.

(** X3. When the compilation succeeded and the export flag is true but no
    file is at the output path, the callback rejects with the read failure,
    although the diagnostics were translated: they are not returned. *)
Theorem missing_export_rejects options path uuid fs args out fs' errs warns context' :
  build_invocation rt options path uuid fs = Ok (args, out, fs') ->
  let p := spawn rt (getInklecateBinaryPath rt) args fs' in
  settled p = exit ->
  truthy (options ≫= opt_stats) = false \/ stats (run_state p) = None ->
  translate rt (issues (run_state p)) (compileContextOf rt path) (disk p) [] [] =
    Ok (errs, warns, context') ->
  success (run_state p) = true ->
  exported (run_state p) = true ->
  disk p !! out = None ->
  onLoad rt options path uuid fs = (Throw (ENOENT out), disk p).
Proof.
  intros Hb p Hexit Hnostats Htr Hs He Hout.
  rewrite (onLoad_unfold _ _ _ _ _ _ _ _ Hb). fold p.
  unfold rm_force, attempt, readFile. rewrite Hout, Hexit, Htr. cbn.
  rewrite Hs, He. cbn.
  destruct Hnostats as [->| ->]; [by destruct (stats (run_state p))|done].
Qed.

(** X4. A process that exits without having printed any object gives a
    result with no errors, no warnings, no contents and no loader, whatever
    the options: the success flag is still false and there is nothing to
    translate. *)
Theorem silent_process_empty_result options p context out :
  settled p = exit ->
  events p = [] ->
  attempt rt options p context out =
    Ok {| contents := None; errors := []; warnings := []; loader := None |}.
Proof.
  intros Hexit Hev.
  destruct (on_readable_fold (stdout p) initial) as (Hs & _ & Hst & Hi).
  fold (run_state p) (events p) in Hs, Hst, Hi. rewrite Hev in Hs, Hst, Hi.
  unfold attempt. rewrite Hexit, Hi, Hs, Hst. reflexivity.
Qed.

(** X5. Of the disk the process leaves, the callback changes the output
    path and nothing else, and it never leaves a regular file there. *)
Theorem onLoad_disk_footprint options path uuid fs args out fs' :
  build_invocation rt options path uuid fs = Ok (args, out, fs') ->
  let p := spawn rt (getInklecateBinaryPath rt) args fs' in
  let after := snd (onLoad rt options path uuid fs) in
  (forall q, q <> out -> after !! q = disk p !! q) /\
  (forall b, after !! out <> Some (File b)).
Proof.
  intros Hb p after. unfold after.
  rewrite (onLoad_unfold _ _ _ _ _ _ _ _ Hb). fold p. unfold rm_force.
  destruct (disk p !! out) as [[b|]|] eqn:Hout; cbn.
  - split; [intros q Hq; by rewrite lookup_delete_ne|].
    intros b'. by rewrite lookup_delete_eq.
  - split; [done|]. intros b. by rewrite Hout.
  - split; [done|]. intros b. by rewrite Hout.
Qed.

(** X6. Whichever branch returns it, a result carries all the translated
    errors and warnings, and it has contents only together with the loader
    "json". *)
Theorem result_shape options p context out r :
  attempt rt options p context out = Ok r ->
  (exists context',
     translate rt (issues (run_state p)) context (disk p) [] [] =
     Ok (errors r, warnings r, context')) /\
  (is_Some (contents r) -> loader r = Some (lit "json")).
Proof.
  unfold attempt. destruct (settled p); [|done].
  destruct (translate rt _ context (disk p) [] []) as [[[errs warns] c]|e];
    cbn; [|done].
  destruct (stats (run_state p)) as [o|], (truthy (options ≫= opt_stats)),
    (success (run_state p)), (exported (run_state p)); cbn;
    try (intros [= <-]; cbn; split; [by eexists|by intros []]);
    destruct (readFile (disk p) out); cbn;
    try done; intros [= <-]; cbn; split; by eauto.
Qed.

(** X7. The callback reads its options only through their truthiness and
    defaults: two option objects that agree there (for instance no options
    at all and [count: false] with an empty plugins directory and "." as
    temp-output directory) give the same run. *)
Theorem options_by_truthiness options options' path uuid fs :
  effective options = effective options' ->
  onLoad rt options path uuid fs = onLoad rt options' path uuid fs.
Proof.
  unfold effective. intros [= Hc Hs Hx Ht].
  assert (build_invocation rt options path uuid fs =
          build_invocation rt options' path uuid fs) as Hb.
  { unfold build_invocation. rewrite Hc, Hs, Ht.
    destruct (options ≫= inklecatePluginsDir) as [[|c d]|],
             (options' ≫= inklecatePluginsDir) as [[|c' d']|];
      cbn in *; by simplify_eq. }
  unfold onLoad. rewrite Hb.
  destruct (build_invocation rt options' path uuid fs) as [[[args out] fs']|e];
    [|done].
  unfold attempt. by rewrite Hs.
Qed.

End CallbackEdges.

(** * Further properties of the translator *)

Section TranslatorEdges.

Context {jsobject : Type} (rt : Runtime jsobject).

Implicit Types (issue file text : jsstring) (context : CompileContext)
  (fs : filesystem) (cache : gmap jsstring jsstring).

Lemma readFileForMessage_inv file line text context fs m context' :
  readFileForMessage rt file line text context fs = Ok (m, context') ->
  let resolvedPath := path_resolve rt [inkContainingDir context; file] in
  exists fileText,
    (fileCacheForBuild context !! resolvedPath = Some fileText \/
     (fileCacheForBuild context !! resolvedPath = None /\
      utf8_decode rt <$> readFile fs resolvedPath = Ok fileText)) /\
    m = {| text := text;
           location := Some {| file := resolvedPath; line := line;
                               lineText := index (split 10 fileText) (line - 1) |} |} /\
    context' = {| fileCacheForBuild :=
                    <[resolvedPath := fileText]> (fileCacheForBuild context);
                  inkContainingDir := inkContainingDir context |}.
Proof.
  intros Hr resolvedPath. unfold readFileForMessage in Hr. fold resolvedPath in Hr.
  destruct (fileCacheForBuild context !! resolvedPath) as [t|] eqn:Hc; cbn in Hr.
  - injection Hr as <- <-. exists t. by split_and!; [left|..].
  - destruct (readFile fs resolvedPath) as [b|e] eqn:Hd; cbn in Hr; [|done].
    injection Hr as <- <-. exists (utf8_decode rt b). by split_and!; [right|..].
Qed.

Lemma createESBuildMessageForIssue_inv issue context fs m context' :
  createESBuildMessageForIssue rt issue context fs = Ok (m, context') ->
  (exists g pm, regex_match errorRegex issue = Some g /\ m = error pm /\
     readFileForMessage rt (group g 1) (parseInt (group g 2)) (group g 3)
       context fs = Ok (pm, context')) \/
  (exists g pm, regex_match errorRegex issue = None /\
     regex_match warningRegex issue = Some g /\ m = warning pm /\
     readFileForMessage rt (group g 1) (parseInt (group g 2)) (group g 3)
       context fs = Ok (pm, context')) \/
  (regex_match errorRegex issue = None /\ regex_match warningRegex issue = None /\
   m = error (unlocated issue) /\ context' = context).
Proof.
  unfold createESBuildMessageForIssue.
  destruct (regex_match errorRegex issue) as [g|].
  - destruct (readFileForMessage rt _ _ _ context fs) as [[pm c]|e] eqn:Hr;
      cbn; [|done].
    intros [= <- <-]. left. by exists g, pm.
  - destruct (regex_match warningRegex issue) as [g|].
    + destruct (readFileForMessage rt _ _ _ context fs) as [[pm c]|e] eqn:Hr;
        cbn; [|done].
      intros [= <- <-]. right; left. by exists g, pm.
    + intros [= <- <-]. by right; right.
Qed.

(** X8. The file cache only grows while issues are translated: an entry is
    never removed nor given another text, and the directory that file
    references are resolved against stays the same. *)
Theorem cache_only_grows todo context fs errors0 warnings0 errs warns context' :
  translate rt todo context fs errors0 warnings0 = Ok (errs, warns, context') ->
  fileCacheForBuild context ⊆ fileCacheForBuild context' /\
  inkContainingDir context' = inkContainingDir context.
Proof.
  revert context errors0 warnings0.
  induction todo as [|issue todo IH]; intros context errors0 warnings0; simpl.
  - by intros [= <- <- <-].
  - destruct (createESBuildMessageForIssue rt issue context fs)
      as [[m c]|e] eqn:Hc; cbn; [|done].
    intros [Hsub Hdir]%IH.
    assert (fileCacheForBuild context ⊆ fileCacheForBuild c /\
            inkContainingDir c = inkContainingDir context) as [Hsub' Hdir'].
    { apply createESBuildMessageForIssue_inv in Hc
        as [(g & pm & _ & _ & Hr)|[(g & pm & _ & _ & _ & Hr)|(_ & _ & _ & ->)]];
        [| |done];
        apply readFileForMessage_inv in Hr as (t & Ht & _ & ->); cbn;
        (split; [|done]);
        (destruct Ht as [Ht|[Ht _]];
         [by rewrite insert_id|by apply insert_subseteq]). }
    split; [by etrans|congruence].
Qed.

(** X9. A file that one diagnostic has brought into the cache is not read
    again: a later diagnostic for the same file gets its line text from the
    cached text on any disk, even one where the file is gone, and leaves
    the context as it is. *)
Theorem cached_file_is_not_read_again file line text context fs m context' :
  readFileForMessage rt file line text context fs = Ok (m, context') ->
  let resolvedPath := path_resolve rt [inkContainingDir context; file] in
  exists fileText,
    fileCacheForBuild context' !! resolvedPath = Some fileText /\
    forall line' text' fs',
      readFileForMessage rt file line' text' context' fs' =
      Ok ({| text := text';
             location := Some {| file := resolvedPath; line := line';
                                 lineText := index (split 10 fileText) (line' - 1) |} |},
          context').
Proof.
  intros (t & _ & _ & ->)%readFileForMessage_inv resolvedPath.
  cbn [inkContainingDir fileCacheForBuild]. fold resolvedPath.
  exists t. split; [by rewrite lookup_insert_eq|].
  intros line' text' fs'. unfold readFileForMessage.
  cbn [inkContainingDir fileCacheForBuild]. fold resolvedPath.
  rewrite lookup_insert_eq. cbn. by rewrite insert_insert_eq.
Qed.

(** X10. A message is a warning only when the warning pattern occurs in the
    issue and the error pattern does not. *)
Theorem warning_only_without_error_pattern issue context fs m context' :
  createESBuildMessageForIssue rt issue context fs = Ok (warning m, context') ->
  occurs warningRegex issue /\ ~ occurs errorRegex issue.
Proof.
  intros [(g & pm & _ & [=] & _)|[(g & pm & He & Hw & _)|(_ & _ & [=] & _)]]
    %createESBuildMessageForIssue_inv.
  split; [|by apply regex_match_None].
  apply regex_match_sound in Hw as (pre & w & post & -> & Hw).
  by exists pre, w, post, g.
Qed.

(** X11. A translated message lacks a location exactly when neither
    pattern occurs in the issue; its text is then the whole issue. *)
Theorem unlocated_iff_no_pattern issue context fs m context' :
  createESBuildMessageForIssue rt issue context fs = Ok (m, context') ->
  (location (payload m) = None <->
   ~ occurs errorRegex issue /\ ~ occurs warningRegex issue) /\
  (location (payload m) = None -> text (payload m) = issue).
Proof.
  intros [(g & pm & He & -> & Hr)|[(g & pm & He & Hw & -> & Hr)|(He & Hw & -> & _)]]
    %createESBuildMessageForIssue_inv.
  - apply readFileForMessage_inv in Hr as (t & _ & -> & _). cbn.
    split; [|done]. split; [done|]. intros [Hno _]. apply regex_match_None in Hno.
    congruence.
  - apply readFileForMessage_inv in Hr as (t & _ & -> & _). cbn.
    split; [|done]. split; [done|]. intros [_ Hno]. apply regex_match_None in Hno.
    congruence.
  - cbn. split; [|done]. split; [|done]. intros _.
    split; by apply regex_match_None.
Qed.



Lemma longest_first_top {A} (f : nat -> option A) lo n x :
  (lo <= n)%nat -> f n = Some x -> longest_first f lo n = Some x.
Proof.
  intros Hlo Hf. destruct n as [|n]; simpl.
  - destruct (Nat.ltb_spec 0 lo); [lia|]. by rewrite Hf.
  - destruct (Nat.ltb_spec (S n) lo); [lia|]. by rewrite Hf.
Qed.

Lemma span_drop (p : N -> bool) (s : jsstring) : span p (drop (span p s) s) = 0%nat.
Proof.
  induction s as [|c s IH]; simpl; [done|].
  destruct (p c) eqn:Hc; simpl; [done|]. by rewrite Hc.
Qed.

Lemma span_zero (p : N -> bool) (s : jsstring) :
  span p s = 0%nat -> s = [] \/ exists c s', s = c :: s' /\ p c = false.
Proof.
  destruct s as [|c s]; simpl; [by left|].
  destruct (p c) eqn:Hc; [done|]. right. by exists c, s.
Qed.

(** A pattern that ends with the group ".*" ends its match where the line
    ends. *)
Lemma match_here_tail (r : regex) (s : jsstring) groups :
  match_here (r ++ [GroupDotStar]) s = Some groups ->
  exists gs g w rest,
    groups = gs ++ [g] /\ s = w ++ g ++ rest /\ denotes r w gs /\
    forallb dot g = true /\ span dot rest = 0%nat.
Proof.
  revert s groups. induction r as [|a r IH]; intros s groups.
  - cbn [app match_here]. intros Hm.
    rewrite (longest_first_top _ _ _ [take (span dot s) s]) in Hm by (done || lia).
    injection Hm as <-.
    exists [], (take (span dot s) s), [], (drop (span dot s) s).
    split_and!; [done|by rewrite take_drop|done|by apply span_take|apply span_drop].
  - cbn [app match_here]. destruct a as [l| |].
    + destruct (strip_prefix l s) as [s'|] eqn:Hl; [|done].
      apply strip_prefix_Some in Hl as ->.
      intros (gs & g & w & rest & -> & -> & Hw & Hg & Hrest)%IH.
      exists gs, g, (l ++ w), rest.
      split_and!; [done|by rewrite <-(assoc_L (++))| |done|done].
      by exists w.
    + intros (k & Hk & Hf)%longest_first_Some.
      destruct (match_here (r ++ [GroupDotStar]) (drop k s)) as [gs0|] eqn:Hr; [|done].
      injection Hf as <-.
      apply IH in Hr as (gs & g & w & rest & -> & Hs & Hw & Hg & Hrest).
      exists (take k s :: gs), g, (take k s ++ w), rest.
      split_and!; [done| |exists (take k s), gs, w|done|done].
      * by rewrite <-(assoc_L (++)), <-Hs, take_drop.
      * split_and!; try done. apply span_take. lia.
    + intros (k & Hk & Hf)%longest_first_Some.
      destruct (match_here (r ++ [GroupDotStar]) (drop k s)) as [gs0|] eqn:Hr; [|done].
      injection Hf as <-.
      apply IH in Hr as (gs & g & w & rest & -> & Hs & Hw & Hg & Hrest).
      exists (take k s :: gs), g, (take k s ++ w), rest.
      split_and!; [done| |exists (take k s), gs, w|done|done].
      * by rewrite <-(assoc_L (++)), <-Hs, take_drop.
      * split_and!; try done.
        -- intros Hnil. apply (f_equal length) in Hnil.
           rewrite length_take in Hnil. simpl in Hnil.
           pose proof (span_le_length digit s). lia.
        -- apply span_take. lia.
Qed.

Lemma regex_match_tail (r : regex) (s : jsstring) groups :
  regex_match (r ++ [GroupDotStar]) s = Some groups ->
  exists pre gs g w rest,
    groups = gs ++ [g] /\ s = pre ++ w ++ g ++ rest /\ denotes r w gs /\
    forallb dot g = true /\ span dot rest = 0%nat.
Proof.
  induction s as [|c s IH]; simpl.
  - destruct (match_here _ []) as [gs0|] eqn:Hm; [|done].
    intros [= <-].
    apply match_here_tail in Hm as (gs & g & w & rest & -> & Hs & Hw & Hg & Hrest).
    by exists [], gs, g, w, rest.
  - destruct (match_here _ (c :: s)) as [gs0|] eqn:Hm.
    + intros [= <-].
      apply match_here_tail in Hm as (gs & g & w & rest & -> & Hs & Hw & Hg & Hrest).
      by exists [], gs, g, w, rest.
    + intros (pre & gs & g & w & rest & -> & -> & Hw & Hg & Hrest)%IH.
      by exists (c :: pre), gs, g, w, rest.
Qed.

Lemma located_text kw issue groups :
  regex_match [Literal kw; GroupDotStar; Literal (lit "' line ");
               GroupDigitPlus; Literal (lit ": "); GroupDotStar] issue =
    Some groups ->
  exists pre post,
    issue = pre ++ lit ": " ++ group groups 3 ++ post /\
    forallb dot (group groups 3) = true /\
    (post = [] \/ exists c post', post = c :: post' /\ is_line_terminator c = true).
Proof.
  intros Hm.
  apply (regex_match_tail [Literal kw; GroupDotStar; Literal (lit "' line ");
                           GroupDigitPlus; Literal (lit ": ")]) in Hm
    as (pre & gs & g & w & rest & -> & -> & Hw & Hg & Hrest).
  cbn [denotes] in Hw.
  destruct Hw as (w1 & -> & f & gs1 & w2 & -> & -> & _ & w3 & -> &
                  d & gs2 & w4 & -> & -> & _ & _ & w5 & -> & -> & ->).
  exists (pre ++ kw ++ f ++ lit "' line " ++ d), rest. cbn [group app pred lookup].
  split_and!.
  - cbn. by rewrite app_nil_r, <-!(assoc_L (++)).
  - done.
  - apply span_zero in Hrest as [->|(c & s' & -> & Hc)]; [by left|].
    right. exists c, s'. split; [done|]. unfold dot in Hc.
    by apply negb_false_iff.
Qed.

(** X13. The text of a located message is the rest of the line that
    follows ": " in the issue: it reaches the end of the issue or the first
    line terminator, and holds none. *)
Theorem located_text_runs_to_end_of_line issue context fs m context' :
  createESBuildMessageForIssue rt issue context fs = Ok (m, context') ->
  is_Some (location (payload m)) ->
  exists pre post,
    issue = pre ++ lit ": " ++ text (payload m) ++ post /\
    forallb dot (text (payload m)) = true /\
    (post = [] \/ exists c post', post = c :: post' /\ is_line_terminator c = true).
Proof.
  intros [(g & pm & Hg & -> & Hr)|[(g & pm & _ & Hg & -> & Hr)|(_ & _ & -> & _)]]
    %createESBuildMessageForIssue_inv; [| |by intros [? [=]]];
    intros _; apply readFileForMessage_inv in Hr as (ft & _ & -> & _);
    cbn [payload text]; by eapply located_text.
Qed.

End TranslatorEdges.

(** * Further properties of the line text *)

Section LineText.

Context {jsobject : Type} (rt : Runtime jsobject).

Implicit Types (s l pre post : jsstring) (sep : N).

Lemma split_length sep s : length (split sep s) = S (count_occ N.eq_dec s sep).
Proof.
  induction s as [|c s IH]; [done|]. cbn [split count_occ].
  destruct (N.eqb_spec c sep) as [->|Hne].
  - destruct (N.eq_dec sep sep); [|done]. simpl. by rewrite IH.
  - destruct (N.eq_dec c sep); [done|].
    destruct (split sep s); simpl in *; lia.
Qed.

Lemma count_occ_last sep pre :
  last pre = Some sep -> (0 < count_occ N.eq_dec pre sep)%nat.
Proof.
  intros [pre' ->]%last_Some. rewrite count_occ_app. simpl.
  destruct (N.eq_dec sep sep); [lia|done].
Qed.

(** Element [n] of the split text is the segment between separator [n] and
    the next. *)
Lemma split_lookup sep s n l :
  split sep s !! n = Some l ->
  count_occ N.eq_dec l sep = 0%nat /\
  exists pre post,
    s = pre ++ l ++ post /\
    count_occ N.eq_dec pre sep = n /\
    (pre = [] \/ last pre = Some sep) /\
    (post = [] \/ head post = Some sep).
Proof.
  revert n l. induction s as [|c s IH]; intros n l.
  - destruct n; [|done]. intros [= <-].
    split; [done|]. exists [], []. by split_and!; [..|left|left].
  - cbn [split]. destruct (N.eqb_spec c sep) as [->|Hne].
    + destruct n as [|n].
      * intros [= <-]. split; [done|].
        exists [], (sep :: s). by split_and!; [..|left|right].
      * cbn. intros (Hl & pre & post & -> & Hn & Hpre & Hpost)%IH.
        split; [done|]. exists (sep :: pre), post. split_and!; [done| | |done].
        -- cbn. destruct (N.eq_dec sep sep); [|done]. by rewrite Hn.
        -- right. destruct Hpre as [->|Hlast]; [done|].
           rewrite last_cons. by rewrite Hlast.
    + pose proof (split_length sep s) as Hlen.
      destruct (split sep s) as [|l0 ls] eqn:Hs; [done|].
      destruct n as [|n].
      * intros [= <-].
        destruct (IH 0%nat l0 eq_refl) as (Hl & pre & post & -> & Hn & Hpre & Hpost).
        destruct Hpre as [->|Hlast]; [|apply (count_occ_last sep) in Hlast; lia].
        split.
        -- cbn. by destruct (N.eq_dec c sep).
        -- exists [], post. by split_and!; [..|left|].
      * cbn. intros Hl.
        destruct (IH (S n) l Hl) as (Hl' & pre & post & -> & Hn & Hpre & Hpost).
        split; [done|]. exists (c :: pre), post. split_and!; [done| | |done].
        -- cbn. by destruct (N.eq_dec c sep).
        -- right. destruct Hpre as [->|Hlast]; [done|].
           rewrite last_cons. by rewrite Hlast.
Qed.

(** X14. A located message has a line text exactly when its line number is
    between 1 and the number of lines of the file, which is one more than
    the number of newlines in it: the empty file has one, empty, line. *)
Theorem line_text_defined_iff file line text context fs m context' :
  readFileForMessage rt file line text context fs = Ok (m, context') ->
  exists fileText loc,
    fileCacheForBuild context' !! path_resolve rt [inkContainingDir context; file] =
      Some fileText /\
    location m = Some loc /\
    (is_Some (lineText loc) <-> 1 <= line <= Z.of_nat (S (newlines fileText))).
Proof.
  intros (t & _ & -> & ->)%readFileForMessage_inv. cbn.
  eexists t, _. split_and!; [by rewrite lookup_insert_eq|done|]. cbn.
  rewrite <-not_eq_None_Some, index_None, split_length. unfold newlines. lia.
Qed.

(** X15. The line text of a located message is a whole line of the file: it
    holds no newline, [line - 1] newlines precede it, it starts the file or
    follows a newline, and it ends the file or is followed by one. *)
Theorem line_text_is_a_line file line text context fs m context' loc l :
  readFileForMessage rt file line text context fs = Ok (m, context') ->
  location m = Some loc ->
  lineText loc = Some l ->
  exists fileText pre post,
    fileCacheForBuild context' !! path_resolve rt [inkContainingDir context; file] =
      Some fileText /\
    fileText = pre ++ l ++ post /\
    newlines l = 0%nat /\
    Z.of_nat (newlines pre) = line - 1 /\
    (pre = [] \/ last pre = Some 10%N) /\
    (post = [] \/ head post = Some 10%N).
Proof.
  intros (t & _ & -> & ->)%readFileForMessage_inv. cbn. intros [= <-]. cbn.
  unfold index. destruct (Z.ltb_spec (line - 1) 0) as [|Hline]; [done|].
  intros (Hl & pre & post & -> & Hn & Hpre & Hpost)%split_lookup.
  exists (pre ++ l ++ post), pre, post. unfold newlines.
  split_and!; [by rewrite lookup_insert_eq|done|done| |done|done].
  rewrite Hn. lia.
Qed.

End LineText.

(** * Further properties of the process driver *)

Section DriverEdges.

Context {jsobject : Type}.

Implicit Types (p q : ChildProcess jsobject) (st : RunState jsobject).

(** X16. Output that arrives later never removes or reorders an issue
    already received: the issues after a prefix of the output are a prefix
    of the issues after all of it. *)
Theorem issues_only_grow (chunks later : list (option (CompilerOutput jsobject))) st :
  issues (fold_left on_readable chunks st) `prefix_of`
  issues (fold_left on_readable (chunks ++ later) st).
Proof.
  rewrite fold_left_app.
  destruct (on_readable_fold later (fold_left on_readable chunks st))
    as (_ & _ & _ & ->).
  by eexists.
Qed.

(** X17. Blank notifications have no effect: two processes whose output
    holds the same objects in the same order end in the same state. *)
Theorem blank_output_is_ignored p q :
  events p = events q -> run_state p = run_state q.
Proof.
  unfold events, run_state. generalize (@initial jsobject) as st.
  generalize (stdout q) as chunks'. generalize (stdout p) as chunks.
  induction chunks as [|[ev|] chunks IH]; intros chunks' st; cbn.
  - induction chunks' as [|[ev'|] chunks' IH']; cbn; [done|done|].
    intros Heq. by apply IH'.
  - revert st. induction chunks' as [|[ev'|] chunks' IH']; intros st; cbn; [done| |].
    + intros [= <- Heq]. by apply IH.
    + intros Heq. by apply IH'.
  - apply IH.
Qed.

End DriverEdges.

(** * The further properties on the sample builds *)

(** X1 on a binary that cannot be started. *)
Lemma process_error_rejects_witness :
  onLoad Edge.unstartable Sample.no_options Sample.story Sample.uuid Sample.sources =
    (Throw (ChildError (lit "spawn ENOENT")), <[Sample.cwd := Dir]> Sample.sources).
Proof.
  destruct (process_error_rejects Edge.unstartable Sample.no_options Sample.story
              Sample.uuid Sample.sources _ _ _ (ChildError (lit "spawn ENOENT"))
              eq_refl eq_refl) as [_ ->].
  - reflexivity.
  - vm_compute. discriminate.
Defined.

(** X2 on a disk where the working directory is a regular file. *)
Lemma mkdir_failure_rejects_witness :
  onLoad Sample.compiles Sample.no_options Sample.story Sample.uuid Edge.blocked =
    (Throw (EEXIST Sample.cwd), Edge.blocked).
Proof.
  exact (mkdir_failure_rejects Sample.compiles Sample.no_options Sample.story
           Sample.uuid Edge.blocked (list_byte_of_string "not a directory") eq_refl).
Defined.

(** X3 on a compiler that announces an export it did not write. *)
Lemma missing_export_rejects_witness :
  onLoad Edge.forgetful Sample.no_options Sample.story Sample.uuid Sample.sources =
    (Throw (ENOENT Sample.output), <[Sample.cwd := Dir]> Sample.sources).
Proof.
  exact (missing_export_rejects Edge.forgetful Sample.no_options Sample.story
           Sample.uuid Sample.sources _ _ _ [] [] _ eq_refl eq_refl
           (or_introl eq_refl) eq_refl eq_refl eq_refl eq_refl).
Defined.

(** X4 on a compiler that prints blank output only, with statistics asked
    for. *)
Lemma silent_process_empty_result_witness :
  attempt Edge.silent Sample.with_stats
    (Posix.compiler [None; None] exit None [] Sample.sources)
    (compileContextOf Edge.silent Sample.story) Sample.output =
    Ok {| contents := None; errors := []; warnings := []; loader := None |}.
Proof.
  exact (silent_process_empty_result Edge.silent Sample.with_stats
           (Posix.compiler [None; None] exit None [] Sample.sources)
           (compileContextOf Edge.silent Sample.story) Sample.output
           eq_refl eq_refl).
Defined.

(** X5 on the build that exports a story: the story source is as it was
    and no file is left at the output path. *)
Lemma onLoad_disk_footprint_witness :
  snd (onLoad Sample.compiles Sample.no_options Sample.story Sample.uuid
         Sample.sources) !! Sample.story = Sample.sources !! Sample.story /\
  forall b,
    snd (onLoad Sample.compiles Sample.no_options Sample.story Sample.uuid
           Sample.sources) !! Sample.output <> Some (File b).
Proof.
  destruct (onLoad_disk_footprint Sample.compiles Sample.no_options Sample.story
              Sample.uuid Sample.sources _ _ _ eq_refl) as [Hframe Hnofile].
  split; [|exact Hnofile].
  rewrite Hframe; [reflexivity|]. vm_compute. discriminate.
Defined.

(** X6 on the try block of the build that exports a story. *)
Lemma result_shape_witness :
  loader {| contents := Some (Buffer (list_byte_of_string "{}"));
            errors := [unlocated Sample.stray];
            warnings := [Sample.blank_choice_message];
            loader := Some (lit "json") |} = Some (lit "json") /\
  exists context',
    translate Sample.compiles [Sample.blank_choice; Sample.stray]
      (compileContextOf Sample.compiles Sample.story)
      (<[Sample.output := Posix.text_file "{}"]> (<[Sample.cwd := Dir]> Sample.sources))
      [] [] =
    Ok ([unlocated Sample.stray], [Sample.blank_choice_message], context').
Proof.
  assert (attempt Sample.compiles Sample.no_options
            (spawn Sample.compiles (getInklecateBinaryPath Sample.compiles)
               [lit "-j"; lit "-o"; Sample.output; Sample.story]
               (<[Sample.cwd := Dir]> Sample.sources))
            (compileContextOf Sample.compiles Sample.story) Sample.output =
          Ok {| contents := Some (Buffer (list_byte_of_string "{}"));
                errors := [unlocated Sample.stray];
                warnings := [Sample.blank_choice_message];
                loader := Some (lit "json") |}) as Hr
    by (vm_compute; reflexivity).
  destruct (result_shape Sample.compiles _ _ _ _ _ Hr) as [Hall Hloader].
  split; [apply Hloader; by eexists|exact Hall].
Defined.

(** X7 on options that are all falsy or defaults, against no options. *)
Lemma options_by_truthiness_witness :
  onLoad Sample.compiles Edge.falsy Sample.story Sample.uuid Sample.sources =
  onLoad Sample.compiles Sample.no_options Sample.story Sample.uuid Sample.sources.
Proof.
  exact (options_by_truthiness Sample.compiles Edge.falsy Sample.no_options
           Sample.story Sample.uuid Sample.sources eq_refl).
Defined.

(** X8 on the three sample diagnostics, from an empty cache. *)
Lemma cache_only_grows_witness :
  fileCacheForBuild (compileContextOf Sample.compiles Sample.story) ⊆
    fileCacheForBuild Sample.cached /\
  inkContainingDir Sample.cached = lit "/proj/story".
Proof.
  exact (cache_only_grows Sample.compiles
           [Sample.stray; Sample.blank_choice; Sample.nested]
           (compileContextOf Sample.compiles Sample.story) Sample.sources [] []
           [unlocated Sample.stray; Sample.nested_message]
           [Sample.blank_choice_message] Sample.cached eq_refl).
Defined.

(** X9: after the story has been read once, a diagnostic for it is
    translated on an empty disk. *)
Lemma cached_file_is_not_read_again_witness :
  readFileForMessage Sample.compiles (lit "main.ink") 3 (lit "Loose end")
    Sample.cached ∅ =
  Ok ({| text := lit "Loose end";
         location := Some {| file := Sample.story; line := 3;
                             lineText := Some (lit "-> END") |} |},
      Sample.cached).
Proof.
  destruct (cached_file_is_not_read_again Sample.compiles (lit "main.ink") 2
              (lit "Blank choice") (compileContextOf Sample.compiles Sample.story)
              Sample.sources Sample.blank_choice_message Sample.cached eq_refl)
    as (fileText & Hcached & Hagain).
  rewrite (Hagain 3 (lit "Loose end") ∅).
  assert (fileText = Sample.story_text) as ->; [|reflexivity].
  vm_compute in Hcached. by injection Hcached.
Defined.

(** X10 on the blank-choice warning. *)
Lemma warning_only_without_error_pattern_witness :
  occurs warningRegex Sample.blank_choice /\ ~ occurs errorRegex Sample.blank_choice.
Proof.
  exact (warning_only_without_error_pattern Sample.compiles Sample.blank_choice
           (compileContextOf Sample.compiles Sample.story) Sample.sources
           Sample.blank_choice_message Sample.cached eq_refl).
Defined.

(** X11 on a line that is not a diagnostic. *)
Lemma unlocated_iff_no_pattern_witness :
  ~ occurs errorRegex Sample.stray /\ ~ occurs warningRegex Sample.stray.
Proof.
  destruct (unlocated_iff_no_pattern Sample.compiles Sample.stray Sample.cached
              Sample.sources (error (unlocated Sample.stray)) Sample.cached eq_refl)
    as [[Hno _] _].
  exact (Hno eq_refl).
Defined.


(** X13 on a diagnostic of two lines: the text stops at the newline. *)
Lemma located_text_runs_to_end_of_line_witness :
  exists pre post,
    Edge.two_lines = pre ++ lit ": " ++ lit "Unknown divert" ++ post /\
    forallb dot (lit "Unknown divert") = true /\
    (post = [] \/ exists c post', post = c :: post' /\ is_line_terminator c = true).
Proof.
  apply (located_text_runs_to_end_of_line Sample.compiles Edge.two_lines
           (compileContextOf Sample.compiles Sample.story) Sample.sources
           (error {| text := lit "Unknown divert";
                     location := Some {| file := Sample.story; line := 1;
                                         lineText := Some (lit "Once upon a time") |} |})
           Sample.cached eq_refl).
  by eexists.
Defined.

(** X14 on line 2 of the story, which has three lines. *)
Lemma line_text_defined_iff_witness :
  exists fileText loc,
    fileCacheForBuild Sample.cached !! Sample.story = Some fileText /\
    location Sample.blank_choice_message = Some loc /\
    (is_Some (lineText loc) <-> 1 <= 2 <= Z.of_nat (S (newlines fileText))).
Proof.
  exact (line_text_defined_iff Sample.compiles (lit "main.ink") 2 (lit "Blank choice")
           (compileContextOf Sample.compiles Sample.story) Sample.sources
           Sample.blank_choice_message Sample.cached eq_refl).
Defined.

(** X15 on line 2 of the story. *)
Lemma line_text_is_a_line_witness :
  exists fileText pre post,
    fileCacheForBuild Sample.cached !! Sample.story = Some fileText /\
    fileText = pre ++ lit "*" ++ post /\
    newlines (lit "*") = 0%nat /\
    Z.of_nat (newlines pre) = 2 - 1 /\
    (pre = [] \/ last pre = Some 10%N) /\
    (post = [] \/ head post = Some 10%N).
Proof.
  exact (line_text_is_a_line Sample.compiles (lit "main.ink") 2 (lit "Blank choice")
           (compileContextOf Sample.compiles Sample.story) Sample.sources
           Sample.blank_choice_message Sample.cached
           {| file := Sample.story; line := 2; lineText := Some (lit "*") |}
           (lit "*") eq_refl eq_refl eq_refl).
Defined.

(** X17 on two runs that differ in blank output only. *)
Lemma blank_output_is_ignored_witness :
  run_state (Posix.compiler
               [Posix.event (Some true) (Some [Sample.stray]) None None; None]
               exit None [] Sample.sources) =
  run_state (Posix.compiler
               [None; Posix.event (Some true) (Some [Sample.stray]) None None;
                None; None]
               exit None [] Sample.sources).
Proof.
  exact (blank_output_is_ignored
           (Posix.compiler
              [Posix.event (Some true) (Some [Sample.stray]) None None; None]
              exit None [] Sample.sources)
           (Posix.compiler
              [None; Posix.event (Some true) (Some [Sample.stray]) None None;
               None; None]
              exit None [] Sample.sources) eq_refl).
Defined.

(** * Diagnostics that need no file *)

Section Unlocated.

Context {jsobject : Type} (rt : Runtime jsobject).

(** X18. Issues that match neither pattern are translated without the
    disk and without the cache: on any disk and from any context, the loop
    appends one unlocated error per issue, in order, adds no warning, and
    returns the context it was given. *)
Theorem unmatched_issues_need_no_disk (todo : list jsstring) context fs errors0 warnings0 :
  Forall (fun issue => regex_match errorRegex issue = None /\
                       regex_match warningRegex issue = None) todo ->
  translate rt todo context fs errors0 warnings0 =
    Ok (errors0 ++ (unlocated <$> todo), warnings0, context).
Proof.
  intros Hall. revert errors0.
  induction Hall as [|issue todo [He Hw] _ IH]; intros errors0; simpl.
  - by rewrite app_nil_r.
  - rewrite unmatched_message by done. cbn. rewrite IH.
    by rewrite <-(assoc_L (++)).
Qed.

End Unlocated.

(** X18 on two lines that are not diagnostics, on an empty disk. *)
Lemma unmatched_issues_need_no_disk_witness :
  translate Sample.compiles [Sample.stray; lit "Killed"] Sample.cached ∅ [] [] =
    Ok ([unlocated Sample.stray; unlocated (lit "Killed")], [], Sample.cached).
Proof.
  apply (unmatched_issues_need_no_disk Sample.compiles [Sample.stray; lit "Killed"]
           Sample.cached ∅ [] []).
  repeat constructor.
Defined.

(** The temp-output directory "blocked/sub" below the regular file
    "/work/blocked": the directory creation fails, nothing is spawned and
    the disk is left as it was. *)
Example mkdir_below_a_file :
  onLoad Sample.compiles Edge.below_a_file Sample.story Sample.uuid Edge.obstructed =
    (Throw (ENOTDIR (lit "/work/blocked/sub")), Edge.obstructed).
Proof.
  apply (invocation_fails_below_a_file Sample.compiles Edge.below_a_file Sample.story
           Sample.uuid Edge.obstructed (lit "/work/blocked")
           (list_byte_of_string "a file")).
  - intros b. vm_compute. discriminate.
  - change (lit "/work/blocked" ∈ [lit "/work/blocked"; lit "/work"]).
    apply elem_of_cons. by left.
  - reflexivity.
Qed.
